(** * ArcPool: a shallow embedding of the authorized financing ledger

    The Solidity contract [ArcPool] (native-USDC supply-chain finance pool)
    is embedded as pure functions over an explicit [State] record.

    - [uint256], [address] and [bytes32] values are natural numbers ([N]);
      Solidity 0.8 arithmetic is checked, so [add], [sub] and [mul] return
      [Revert Panic] where the EVM would abort on overflow or underflow.
    - [mapping]s are finite maps with the zero value as default
      ([lpDeposits], [financingRecords]); the [bool]-valued mapping
      [usedInvoices] is the finite set of keys mapped to [true].
    - A call either returns [Ok (s', events)] or [Revert e].  The EVM
      discards every storage write of a reverting call: [transact] keeps
      the pre-call state in that case.
    - [msg.sender], [block.timestamp] and the outcome of the low-level
      value-carrying [recipient.call] are supplied by an [Env]; [msg.value]
      is an explicit argument of the payable entry points only.
    - A recipient of a transfer is seen through the success flag of the
      call only.  Calls are serialized: what a recipient could do while it
      holds control is limited to the entry points without [nonReentrant],
      which act on the storage already written, and is left out.
    - The EIP-712 digest and [ECDSA.recover] are parameters ([Crypto]).
    - The inherited OpenZeppelin contracts are modelled as far as the
      contract uses them: [AccessControl] (role table, [onlyRole],
      [grantRole]/[revokeRole]/[renounceRole] and their internal variants)
      and [ReentrancyGuard] (the [_status] flag and [nonReentrant]). *)

From stdpp Require Import gmap.

Open Scope N_scope.

(** ** Results of a call *)

(** Revert reasons.  The comment next to each constructor gives the
    [require] message (or library error) it stands for. *)
Inductive Error : Type :=
| AmountZero                 (* "Amount must be greater than 0" *)
| InsufficientDeposit        (* "Insufficient deposit" *)
| InsufficientLiquidity      (* "Insufficient pool liquidity" *)
| TransferFailed             (* "Transfer failed", "USDC transfer failed" *)
| InvoiceAlreadyFinanced     (* "Invoice already financed" *)
| SignatureExpired           (* "Signature expired" *)
| InvalidTerms               (* "Repayment must be greater than payout" *)
| InvalidDueDate             (* "Due date must be in the future" *)
| InvalidSignature           (* "Invalid signature", or ECDSA.recover reverting *)
| InvoiceNotFinanced         (* "Invoice not financed" *)
| AlreadyRepaid              (* "Already repaid" *)
| InsufficientRepayment      (* "Insufficient repayment amount" *)
| ProtocolFeeTransferFailed  (* "Protocol fee transfer failed" *)
| RefundFailed               (* "Refund failed" *)
| InvalidAddress             (* "Invalid Aegis wallet", "Invalid wallet address",
                                "Invalid receiver address" *)
| FeeRateTooHigh             (* "Fee rate cannot exceed 50%" *)
| Unauthorized (account role : N) (* AccessControlUnauthorizedAccount *)
| BadConfirmation            (* AccessControlBadConfirmation *)
| ReentrancyBlocked          (* ReentrancyGuardReentrantCall *)
| Panic.                     (* checked arithmetic: overflow or underflow *)

Inductive Result (A : Type) : Type :=
| Ok (a : A)
| Revert (e : Error).
Arguments Ok {A} a.
Arguments Revert {A} e.

Global Instance Result_ret : MRet Result := fun _ a => Ok a.
Global Instance Result_bind : MBind Result := fun _ _ f r =>
  match r with
  | Ok a => f a
  | Revert e => Revert e
  end.

Definition require (cond : bool) (e : Error) : Result unit :=
  if cond then Ok tt else Revert e.

(** ** Checked [uint256] arithmetic *)

Definition MAX_UINT256 : N := 2 ^ 256 - 1.

Definition add (a b : N) : Result N :=
  if a + b <=? MAX_UINT256 then Ok (a + b) else Revert Panic.

Definition sub (a b : N) : Result N :=
  if b <=? a then Ok (a - b) else Revert Panic.

Definition mul (a b : N) : Result N :=
  if a * b <=? MAX_UINT256 then Ok (a * b) else Revert Panic.

(** ** Storage *)

Record FinancingRecord : Type := mkFinancingRecord {
  invoiceId : N;
  supplier : N;
  payoutAmount : N;
  repaymentAmount : N;
  dueDate : N;
  timestamp : N;
  repaid : bool
}.

(** The value of an unwritten [financingRecords] slot. *)
Definition zeroRecord : FinancingRecord :=
  mkFinancingRecord 0 0 0 0 0 0 false.

Definition set_repaid (b : bool) (r : FinancingRecord) : FinancingRecord :=
  mkFinancingRecord (invoiceId r) (supplier r) (payoutAmount r)
    (repaymentAmount r) (dueDate r) (timestamp r) b.

Global Instance FinancingRecord_eq_dec : EqDecision FinancingRecord.
Proof. solve_decision. Defined.

Record State : Type := mkState {
  aegisServerWallet : N;
  totalPoolSize : N;
  availableLiquidity : N;
  totalFinanced : N;
  totalInterestEarned : N;
  protocolFeeRate : N;
  protocolFeeReceiver : N;
  usedInvoices : gset N;
  lpDeposits : gmap N N;
  financingRecords : gmap N FinancingRecord;
  _roles : gset (N * N);       (* AccessControl: (role, account) pairs *)
  _status : bool               (* ReentrancyGuard: [true] is ENTERED *)
}.

Definition set_aegisServerWallet (v : N) (s : State) : State :=
  mkState v (totalPoolSize s) (availableLiquidity s) (totalFinanced s)
    (totalInterestEarned s) (protocolFeeRate s) (protocolFeeReceiver s)
    (usedInvoices s) (lpDeposits s) (financingRecords s) (_roles s) (_status s).

Definition set_totalPoolSize (v : N) (s : State) : State :=
  mkState (aegisServerWallet s) v (availableLiquidity s) (totalFinanced s)
    (totalInterestEarned s) (protocolFeeRate s) (protocolFeeReceiver s)
    (usedInvoices s) (lpDeposits s) (financingRecords s) (_roles s) (_status s).

Definition set_availableLiquidity (v : N) (s : State) : State :=
  mkState (aegisServerWallet s) (totalPoolSize s) v (totalFinanced s)
    (totalInterestEarned s) (protocolFeeRate s) (protocolFeeReceiver s)
    (usedInvoices s) (lpDeposits s) (financingRecords s) (_roles s) (_status s).

Definition set_totalFinanced (v : N) (s : State) : State :=
  mkState (aegisServerWallet s) (totalPoolSize s) (availableLiquidity s) v
    (totalInterestEarned s) (protocolFeeRate s) (protocolFeeReceiver s)
    (usedInvoices s) (lpDeposits s) (financingRecords s) (_roles s) (_status s).

Definition set_totalInterestEarned (v : N) (s : State) : State :=
  mkState (aegisServerWallet s) (totalPoolSize s) (availableLiquidity s)
    (totalFinanced s) v (protocolFeeRate s) (protocolFeeReceiver s)
    (usedInvoices s) (lpDeposits s) (financingRecords s) (_roles s) (_status s).

Definition set_protocolFeeRate (v : N) (s : State) : State :=
  mkState (aegisServerWallet s) (totalPoolSize s) (availableLiquidity s)
    (totalFinanced s) (totalInterestEarned s) v (protocolFeeReceiver s)
    (usedInvoices s) (lpDeposits s) (financingRecords s) (_roles s) (_status s).

Definition set_protocolFeeReceiver (v : N) (s : State) : State :=
  mkState (aegisServerWallet s) (totalPoolSize s) (availableLiquidity s)
    (totalFinanced s) (totalInterestEarned s) (protocolFeeRate s) v
    (usedInvoices s) (lpDeposits s) (financingRecords s) (_roles s) (_status s).

Definition set_usedInvoices (v : gset N) (s : State) : State :=
  mkState (aegisServerWallet s) (totalPoolSize s) (availableLiquidity s)
    (totalFinanced s) (totalInterestEarned s) (protocolFeeRate s)
    (protocolFeeReceiver s) v (lpDeposits s) (financingRecords s) (_roles s)
    (_status s).

Definition set_lpDeposits (v : gmap N N) (s : State) : State :=
  mkState (aegisServerWallet s) (totalPoolSize s) (availableLiquidity s)
    (totalFinanced s) (totalInterestEarned s) (protocolFeeRate s)
    (protocolFeeReceiver s) (usedInvoices s) v (financingRecords s) (_roles s)
    (_status s).

Definition set_financingRecords (v : gmap N FinancingRecord) (s : State) : State :=
  mkState (aegisServerWallet s) (totalPoolSize s) (availableLiquidity s)
    (totalFinanced s) (totalInterestEarned s) (protocolFeeRate s)
    (protocolFeeReceiver s) (usedInvoices s) (lpDeposits s) v (_roles s)
    (_status s).

Definition set_roles (v : gset (N * N)) (s : State) : State :=
  mkState (aegisServerWallet s) (totalPoolSize s) (availableLiquidity s)
    (totalFinanced s) (totalInterestEarned s) (protocolFeeRate s)
    (protocolFeeReceiver s) (usedInvoices s) (lpDeposits s)
    (financingRecords s) v (_status s).

Definition set_status (v : bool) (s : State) : State :=
  mkState (aegisServerWallet s) (totalPoolSize s) (availableLiquidity s)
    (totalFinanced s) (totalInterestEarned s) (protocolFeeRate s)
    (protocolFeeReceiver s) (usedInvoices s) (lpDeposits s)
    (financingRecords s) (_roles s) v.

(** ** Events *)

Inductive Event : Type :=
| Deposit (lp amount newTotalPoolSize : N)
| Withdrawal (lp amount newTotalPoolSize : N)
| FinancingWithdrawn (id supplier_ amount time : N)
| Repayment (id payer amount interest lateFee : N)
| InterestDistributed (lpShare protocolShare : N)
| AegisWalletUpdated (oldWallet newWallet : N)
| RoleGranted (role account by_ : N)
| RoleRevoked (role account by_ : N).

(** ** Call context *)

Record Env : Type := mkEnv {
  msg_sender : N;
  block_timestamp : N;
  (** [call_value to v]: does the native transfer of [v] to [to] succeed? *)
  call_value : N -> N -> bool
}.

(** The EIP-712 digest of a [FinancingRequest] (the seven signed fields,
    under the contract's domain separator) and signer recovery; [None]
    stands for [ECDSA.recover] reverting on a malformed signature. *)
Record Crypto : Type := mkCrypto {
  hashFinancingRequest :
    N (* invoiceId *) -> N (* supplier *) -> N (* payoutAmount *) ->
    N (* repaymentAmount *) -> N (* dueDate *) -> N (* nonce *) ->
    N (* deadline *) -> N;
  ECDSA_recover : N -> list N -> option N
}.

(** ** View functions *)

Definition getLPBalance (lp : N) (s : State) : N :=
  default 0 (lpDeposits s !! lp).

Definition isInvoiceFinanced (id : N) (s : State) : bool :=
  bool_decide (id ∈ usedInvoices s).

Definition getFinancingRecord (id : N) (s : State) : FinancingRecord :=
  default zeroRecord (financingRecords s !! id).

Definition getPoolStatus (s : State) : Result (N * N * N * N) :=
  utilized ← sub (totalPoolSize s) (availableLiquidity s);
  Ok (totalPoolSize s, availableLiquidity s, utilized, totalFinanced s).

(** ** AccessControl (OpenZeppelin) *)

(** The contract inherits [AccessControl] from the imported
    [@openzeppelin/contracts/access/AccessControl.sol].  Its storage is a
    table of role members; the definitions below follow the library's
    functions of the same names. *)

Definition DEFAULT_ADMIN_ROLE : N := 0.
(** [keccak256("ADMIN_ROLE")] *)
Definition ADMIN_ROLE : N :=
  0xa49807205ce4d355092ef5a8a18f56e8913cf4a201fbe287825b095693c21775.
(** [keccak256("AEGIS_ROLE")] *)
Definition AEGIS_ROLE : N :=
  0x933bf122f9cc740f7dac98f97f6e755d533f842904365856434ed1e5c2e991e1.

(** [hasRole(role, account)]: membership in the role table. *)
Definition hasRole (role account : N) (s : State) : bool :=
  bool_decide ((role, account) ∈ _roles s).

(** [getRoleAdmin(role)]: the admin role recorded for [role].  The
    contract never calls [_setRoleAdmin], so the record is the zero value,
    [DEFAULT_ADMIN_ROLE], for every role. *)
Definition getRoleAdmin (role : N) : N := DEFAULT_ADMIN_ROLE.

(** The [onlyRole(role)] modifier, checked against [msg.sender]. *)
Definition onlyRole (env : Env) (role : N) (s : State) : Result unit :=
  require (hasRole role (msg_sender env) s) (Unauthorized (msg_sender env) role).

(** Internal [_grantRole(role, account)]: no access check; adds the member
    and emits [RoleGranted] unless the account already holds the role. *)
Definition _grantRole (env : Env) (role account : N) (s : State)
  : State * list Event :=
  if hasRole role account s then (s, [])
  else (set_roles ({[(role, account)]} ∪ _roles s) s,
        [RoleGranted role account (msg_sender env)]).

(** Internal [_revokeRole(role, account)]: no access check; removes the
    member and emits [RoleRevoked] if the account holds the role. *)
Definition _revokeRole (env : Env) (role account : N) (s : State)
  : State * list Event :=
  if hasRole role account s
  then (set_roles (_roles s ∖ {[(role, account)]}) s,
        [RoleRevoked role account (msg_sender env)])
  else (s, []).

(** Public [grantRole(role, account)], declared
    [onlyRole(getRoleAdmin(role))]. *)
Definition grantRole (env : Env) (role account : N) (s : State)
  : Result (State * list Event) :=
  onlyRole env (getRoleAdmin role) s;;
  Ok (_grantRole env role account s).

(** Public [revokeRole(role, account)], declared
    [onlyRole(getRoleAdmin(role))]. *)
Definition revokeRole (env : Env) (role account : N) (s : State)
  : Result (State * list Event) :=
  onlyRole env (getRoleAdmin role) s;;
  Ok (_revokeRole env role account s).

(** Public [renounceRole(role, callerConfirmation)]: an account gives up
    its own role. *)
Definition renounceRole (env : Env) (role callerConfirmation : N) (s : State)
  : Result (State * list Event) :=
  require (callerConfirmation =? msg_sender env) BadConfirmation;;
  Ok (_revokeRole env role callerConfirmation s).

(** ** ReentrancyGuard (OpenZeppelin) *)

(** The [nonReentrant] modifier: revert if [_status] is ENTERED, set it,
    run the body, reset it. *)
Definition nonReentrant (body : State -> Result (State * list Event))
  (s : State) : Result (State * list Event) :=
  require (negb (_status s)) ReentrancyBlocked;;
  '(s', evs) ← body (set_status true s);
  Ok (set_status false s', evs).

(** ** The contract *)

Definition constructor (env : Env) (value : N) (_aegisServerWallet : N)
  : Result (State * list Event) :=
  require (negb (_aegisServerWallet =? 0)) InvalidAddress;;
  let s0 :=
    mkState _aegisServerWallet 0 0 0 0 1000 (msg_sender env) ∅ ∅ ∅ ∅ false in
  let '(s1, evs1) := _grantRole env DEFAULT_ADMIN_ROLE (msg_sender env) s0 in
  let '(s2, evs2) := _grantRole env ADMIN_ROLE (msg_sender env) s1 in
  let '(s3, evs3) := _grantRole env AEGIS_ROLE _aegisServerWallet s2 in
  if 0 <? value then
    let s4 := set_totalPoolSize value s3 in
    let s5 := set_availableLiquidity value s4 in
    let s6 := set_lpDeposits (<[msg_sender env := value]> (lpDeposits s5)) s5 in
    Ok (s6, evs1 ++ evs2 ++ evs3 ++
            [Deposit (msg_sender env) value (totalPoolSize s6)])
  else Ok (s3, evs1 ++ evs2 ++ evs3).

Definition _processDeposit (depositor amount : N) (s : State)
  : Result (State * list Event) :=
  require (0 <? amount) AmountZero;;
  lp ← add (getLPBalance depositor s) amount;
  let s1 := set_lpDeposits (<[depositor := lp]> (lpDeposits s)) s in
  total ← add (totalPoolSize s1) amount;
  let s2 := set_totalPoolSize total s1 in
  available ← add (availableLiquidity s2) amount;
  let s3 := set_availableLiquidity available s2 in
  Ok (s3, [Deposit depositor amount (totalPoolSize s3)]).

Definition deposit (env : Env) (value : N) : State -> Result (State * list Event) :=
  nonReentrant (fun s => _processDeposit (msg_sender env) value s).

Definition receive (env : Env) (value : N) (s : State)
  : Result (State * list Event) :=
  _processDeposit (msg_sender env) value s.

(** The function bodies are named apart from the [nonReentrant] modifier
    that wraps them. *)
Definition withdraw_body (env : Env) (amount : N) (s : State)
  : Result (State * list Event) :=
  require (0 <? amount) AmountZero;;
  require (amount <=? getLPBalance (msg_sender env) s) InsufficientDeposit;;
  require (amount <=? availableLiquidity s) InsufficientLiquidity;;
  lp ← sub (getLPBalance (msg_sender env) s) amount;
  let s1 := set_lpDeposits (<[msg_sender env := lp]> (lpDeposits s)) s in
  total ← sub (totalPoolSize s1) amount;
  let s2 := set_totalPoolSize total s1 in
  available ← sub (availableLiquidity s2) amount;
  let s3 := set_availableLiquidity available s2 in
  require (call_value env (msg_sender env) amount) TransferFailed;;
  Ok (s3, [Withdrawal (msg_sender env) amount (totalPoolSize s3)]).

Definition withdraw (env : Env) (amount : N) : State -> Result (State * list Event) :=
  nonReentrant (withdraw_body env amount).

Section Financing.
Context (K : Crypto).

(** [ECDSA.recover] over the typed-data hash of the request, with
    [msg.sender] in the [supplier] position. *)
Definition recoverSigner (env : Env)
  (id payout repayment due nonce deadline : N) (signature : list N)
  : option N :=
  ECDSA_recover K
    (hashFinancingRequest K id (msg_sender env) payout repayment due
       nonce deadline)
    signature.

(** The storage writes of [withdrawFinancing], between the signature
    check and the payout transfer. *)
Definition recordFinancing (env : Env) (id payout repayment due : N)
  (s : State) : Result State :=
  let s1 := set_usedInvoices ({[id]} ∪ usedInvoices s) s in
  available ← sub (availableLiquidity s1) payout;
  let s2 := set_availableLiquidity available s1 in
  financed ← add (totalFinanced s2) payout;
  let s3 := set_totalFinanced financed s2 in
  Ok (set_financingRecords
        (<[id := mkFinancingRecord id (msg_sender env) payout repayment due
                   (block_timestamp env) false]> (financingRecords s3))
        s3).

Definition withdrawFinancing_body (env : Env)
  (id payout repayment due nonce deadline : N) (signature : list N)
  (s : State) : Result (State * list Event) :=
  require (negb (isInvoiceFinanced id s)) InvoiceAlreadyFinanced;;
  require (block_timestamp env <=? deadline) SignatureExpired;;
  require (payout <=? availableLiquidity s) InsufficientLiquidity;;
  require (payout <? repayment) InvalidTerms;;
  require (block_timestamp env <? due) InvalidDueDate;;
  match recoverSigner env id payout repayment due nonce deadline signature with
  | None => Revert InvalidSignature
  | Some signer =>
    require (signer =? aegisServerWallet s) InvalidSignature;;
    s' ← recordFinancing env id payout repayment due s;
    require (call_value env (msg_sender env) payout) TransferFailed;;
    Ok (s', [FinancingWithdrawn id (msg_sender env) payout
               (block_timestamp env)])
  end.

Definition withdrawFinancing (env : Env)
  (id payout repayment due nonce deadline : N) (signature : list N)
  : State -> Result (State * list Event) :=
  nonReentrant
    (withdrawFinancing_body env id payout repayment due nonce deadline
       signature).
End Financing.

(** *** Repayment *)

Definition SECONDS_PER_DAY : N := 86400.

(** The late-fee block of [repay]: 1% of the repayment amount per full day
    overdue, capped at 30%. *)
Definition lateFeeOf (record : FinancingRecord) (now : N) : Result N :=
  if dueDate record <? now then
    elapsed ← sub now (dueDate record);
    let daysLate := elapsed / SECONDS_PER_DAY in
    perDay ← mul (repaymentAmount record) daysLate;
    scaled ← mul perDay 100;
    let lateFee := scaled / 10000 in
    capScaled ← mul (repaymentAmount record) 3000;
    let maxLateFee := capScaled / 10000 in
    Ok (if maxLateFee <? lateFee then maxLateFee else lateFee)
  else Ok 0.

Definition repay_body (env : Env) (value : N) (id : N) (s : State)
  : Result (State * list Event) :=
  let record := getFinancingRecord id s in
  require (isInvoiceFinanced id s) InvoiceNotFinanced;;
  require (negb (repaid record)) AlreadyRepaid;;
  lateFee ← lateFeeOf record (block_timestamp env);
  requiredAmount ←
    (if dueDate record <? block_timestamp env
     then add (repaymentAmount record) lateFee
     else Ok (repaymentAmount record));
  require (requiredAmount <=? value) InsufficientRepayment;;
  baseInterest ← sub (repaymentAmount record) (payoutAmount record);
  totalInterest ← add baseInterest lateFee;
  scaledFee ← mul totalInterest (protocolFeeRate s);
  let protocolFee := scaledFee / 10000 in
  lpInterest ← sub totalInterest protocolFee;
  let s1 :=
    set_financingRecords (<[id := set_repaid true record]> (financingRecords s)) s in
  released ← add (payoutAmount record) lpInterest;
  available ← add (availableLiquidity s1) released;
  let s2 := set_availableLiquidity available s1 in
  total ← add (totalPoolSize s2) lpInterest;
  let s3 := set_totalPoolSize total s2 in
  earned ← add (totalInterestEarned s3) totalInterest;
  let s4 := set_totalInterestEarned earned s3 in
  (if 0 <? protocolFee
   then require (call_value env (protocolFeeReceiver s4) protocolFee)
          ProtocolFeeTransferFailed
   else Ok tt);;
  (if requiredAmount <? value
   then excess ← sub value requiredAmount;
        require (call_value env (msg_sender env) excess) RefundFailed
   else Ok tt);;
  Ok (s4, [Repayment id (msg_sender env) value totalInterest lateFee;
           InterestDistributed lpInterest protocolFee]).

Definition repay (env : Env) (value : N) (id : N)
  : State -> Result (State * list Event) :=
  nonReentrant (repay_body env value id).

(** *** Admin functions *)

Definition updateAegisWallet (env : Env) (newWallet : N) (s : State)
  : Result (State * list Event) :=
  onlyRole env ADMIN_ROLE s;;
  require (negb (newWallet =? 0)) InvalidAddress;;
  let oldWallet := aegisServerWallet s in
  let s1 := set_aegisServerWallet newWallet s in
  '(s2, evs2) ← revokeRole env AEGIS_ROLE oldWallet s1;
  '(s3, evs3) ← grantRole env AEGIS_ROLE newWallet s2;
  Ok (s3, evs2 ++ evs3 ++ [AegisWalletUpdated oldWallet newWallet]).

Definition updateProtocolFeeRate (env : Env) (newRate : N) (s : State)
  : Result (State * list Event) :=
  onlyRole env ADMIN_ROLE s;;
  require (newRate <=? 5000) FeeRateTooHigh;;
  Ok (set_protocolFeeRate newRate s, []).

Definition updateProtocolFeeReceiver (env : Env) (newReceiver : N) (s : State)
  : Result (State * list Event) :=
  onlyRole env ADMIN_ROLE s;;
  require (negb (newReceiver =? 0)) InvalidAddress;;
  Ok (set_protocolFeeReceiver newReceiver s, []).

(** ** Transactions *)

Inductive Call : Type :=
| call_deposit (value : N)
| call_receive (value : N)
| call_withdraw (amount : N)
| call_withdrawFinancing (id payout repayment due nonce deadline : N)
    (signature : list N)
| call_repay (value id : N)
| call_updateAegisWallet (newWallet : N)
| call_updateProtocolFeeRate (newRate : N)
| call_updateProtocolFeeReceiver (newReceiver : N)
| call_grantRole (role account : N)
| call_revokeRole (role account : N)
| call_renounceRole (role callerConfirmation : N).

Definition execute (K : Crypto) (env : Env) (c : Call) (s : State)
  : Result (State * list Event) :=
  match c with
  | call_deposit value => deposit env value s
  | call_receive value => receive env value s
  | call_withdraw amount => withdraw env amount s
  | call_withdrawFinancing id payout repayment due nonce deadline signature =>
      withdrawFinancing K env id payout repayment due nonce deadline signature s
  | call_repay value id => repay env value id s
  | call_updateAegisWallet newWallet => updateAegisWallet env newWallet s
  | call_updateProtocolFeeRate newRate => updateProtocolFeeRate env newRate s
  | call_updateProtocolFeeReceiver newReceiver =>
      updateProtocolFeeReceiver env newReceiver s
  | call_grantRole role account => grantRole env role account s
  | call_revokeRole role account => revokeRole env role account s
  | call_renounceRole role callerConfirmation =>
      renounceRole env role callerConfirmation s
  end.

(** A reverting call leaves storage as it was. *)
Definition transact (K : Crypto) (env : Env) (c : Call) (s : State) : State :=
  match execute K env c s with
  | Ok (s', _) => s'
  | Revert _ => s
  end.

Definition succeeds {A} (r : Result A) : bool :=
  match r with Ok _ => true | Revert _ => false end.

(** States reachable from deployment by any sequence of calls. *)
Inductive Reachable (K : Crypto) : State -> Prop :=
| Reachable_constructor env value wallet s evs :
    constructor env value wallet = Ok (s, evs) -> Reachable K s
| Reachable_transact env c s :
    Reachable K s -> Reachable K (transact K env c s).

(** ** Auxiliary definitions for the proofs *)

(** Principal still owed on a record: its payout until it is repaid. *)
Definition owed (r : FinancingRecord) : N :=
  if repaid r then 0 else payoutAmount r.

Definition outstanding (m : gmap N FinancingRecord) : N :=
  map_fold (fun _ r acc => owed r + acc) 0 m.

(** The accounting invariant: liquidity plus principal out on loan is the
    pool size, and only used invoices have a record. *)
Record Inv (s : State) : Prop := mkInv {
  inv_balance :
    availableLiquidity s + outstanding (financingRecords s) = totalPoolSize s;
  inv_records :
    forall id, id ∉ usedInvoices s -> financingRecords s !! id = None
}.

(** A body that neither reads nor writes [_status]. *)
Definition status_agnostic (body : State -> Result (State * list Event)) : Prop :=
  forall b s,
    body (set_status b s) =
    match body s with
    | Ok (s', evs) => Ok (set_status b s', evs)
    | Revert e => Revert e
    end.

(** The ledger mutations as the specification words them (LedgerStore). *)

Definition credit (account amount : N) (s : State) : State :=
  set_availableLiquidity (availableLiquidity s + amount)
    (set_totalPoolSize (totalPoolSize s + amount)
       (set_lpDeposits
          (<[account := getLPBalance account s + amount]> (lpDeposits s)) s)).

Definition debit (account amount : N) (s : State) : State :=
  set_availableLiquidity (availableLiquidity s - amount)
    (set_totalPoolSize (totalPoolSize s - amount)
       (set_lpDeposits
          (<[account := getLPBalance account s - amount]> (lpDeposits s)) s)).

Definition reserve (amount : N) (s : State) : State :=
  set_totalFinanced (totalFinanced s + amount)
    (set_availableLiquidity (availableLiquidity s - amount) s).

Definition release (principal interestShare fullInterest : N) (s : State) : State :=
  set_totalInterestEarned (totalInterestEarned s + fullInterest)
    (set_totalPoolSize (totalPoolSize s + interestShare)
       (set_availableLiquidity
          (availableLiquidity s + (principal + interestShare)) s)).

(** Step 7 of financing: mark the invoice used, reserve the payout, create
    the record. *)
Definition financed (id supplier_ payout repayment due now : N) (s : State)
  : State :=
  set_financingRecords
    (<[id := mkFinancingRecord id supplier_ payout repayment due now false]>
       (financingRecords s))
    (reserve payout (set_usedInvoices ({[id]} ∪ usedInvoices s) s)).

(** The fee formulas as the specification words them (FeeEngine). *)

Definition lateFee_spec (repayment due now : N) : N :=
  if now <=? due then 0
  else N.min (repayment * ((now - due) / 86400) * 1 / 100)
             (repayment * 30 / 100).

Definition protocolFee_spec (totalInterest rateBps : N) : N :=
  totalInterest * rateBps / 10000.

(** Steps 5 and 6 of repayment: mark the record repaid, release principal
    and the LP share of the interest. *)
Definition repaidState (id : N) (lpInterest totalInterest : N) (s : State)
  : State :=
  let record := getFinancingRecord id s in
  release (payoutAmount record) lpInterest totalInterest
    (set_financingRecords
       (<[id := set_repaid true record]> (financingRecords s)) s).

(** The products of the late-fee block fit in a [uint256]. *)
Definition lateFee_safe (record : FinancingRecord) (now : N) : Prop :=
  dueDate record < now ->
  repaymentAmount record * ((now - dueDate record) / 86400) * 100 <= MAX_UINT256 /\
  repaymentAmount record * 3000 <= MAX_UINT256.

(** The amounts computed by [repay] for a record repaid at time [now] under
    fee rate [rateBps]. *)
Definition lateFeeFor (record : FinancingRecord) (now : N) : N :=
  lateFee_spec (repaymentAmount record) (dueDate record) now.

Definition requiredFor (record : FinancingRecord) (now : N) : N :=
  repaymentAmount record + lateFeeFor record now.

Definition totalInterestFor (record : FinancingRecord) (now : N) : N :=
  (repaymentAmount record - payoutAmount record) + lateFeeFor record now.

Definition protocolFeeFor (record : FinancingRecord) (now rateBps : N) : N :=
  protocolFee_spec (totalInterestFor record now) rateBps.

Definition lpInterestFor (record : FinancingRecord) (now rateBps : N) : N :=
  totalInterestFor record now - protocolFeeFor record now rateBps.

(** No checked operation of [repay] overflows or underflows. *)
Definition repay_safe (record : FinancingRecord) (now : N) (s : State) : Prop :=
  lateFee_safe record now /\
  (dueDate record < now -> requiredFor record now <= MAX_UINT256) /\
  payoutAmount record <= repaymentAmount record /\
  totalInterestFor record now <= MAX_UINT256 /\
  totalInterestFor record now * protocolFeeRate s <= MAX_UINT256 /\
  protocolFeeFor record now (protocolFeeRate s) <= totalInterestFor record now /\
  availableLiquidity s +
    (payoutAmount record + lpInterestFor record now (protocolFeeRate s))
    <= MAX_UINT256 /\
  totalPoolSize s + lpInterestFor record now (protocolFeeRate s) <= MAX_UINT256 /\
  totalInterestEarned s + totalInterestFor record now <= MAX_UINT256.

(** The role functions write nothing but the role table. *)
Definition same_ledger (s s' : State) : Prop :=
  aegisServerWallet s' = aegisServerWallet s /\
  totalPoolSize s' = totalPoolSize s /\
  availableLiquidity s' = availableLiquidity s /\
  totalFinanced s' = totalFinanced s /\
  totalInterestEarned s' = totalInterestEarned s /\
  protocolFeeRate s' = protocolFeeRate s /\
  protocolFeeReceiver s' = protocolFeeReceiver s /\
  usedInvoices s' = usedInvoices s /\
  lpDeposits s' = lpDeposits s /\
  financingRecords s' = financingRecords s /\
  _status s' = _status s.

(** The state after a successful rotation: new wallet, its role granted,
    the old wallet's role revoked. *)
Definition rotated (env : Env) (newWallet : N) (s : State) : State * list Event :=
  let s1 := set_aegisServerWallet newWallet s in
  let '(s2, evs2) := _revokeRole env AEGIS_ROLE (aegisServerWallet s) s1 in
  let '(s3, evs3) := _grantRole env AEGIS_ROLE newWallet s2 in
  (s3, evs2 ++ evs3 ++ [AegisWalletUpdated (aegisServerWallet s) newWallet]).

(** ** The financing checks as the specification lists them *)

(** The error of the first check that does not hold, if any. *)
Fixpoint first_failure (checks : list (bool * Error)) : option Error :=
  match checks with
  | [] => None
  | (holds, e) :: rest => if holds then first_failure rest else Some e
  end.

(** Steps 1 to 6 of [withdrawFinancing], in the order of the specification:
    each check with the error it raises when it does not hold. *)
Definition financing_checks (K : Crypto) (env : Env)
  (id payout repayment due nonce deadline : N) (signature : list N) (s : State)
  : list (bool * Error) :=
  [ (bool_decide (id ∉ usedInvoices s), InvoiceAlreadyFinanced);
    (bool_decide (block_timestamp env <= deadline), SignatureExpired);
    (bool_decide (payout <= availableLiquidity s), InsufficientLiquidity);
    (bool_decide (payout < repayment), InvalidTerms);
    (bool_decide (block_timestamp env < due), InvalidDueDate);
    (bool_decide (recoverSigner K env id payout repayment due nonce deadline
                    signature = Some (aegisServerWallet s)),
     InvalidSignature) ].

(** ** Runs *)

(** A sequence of transactions, each in its own call context. *)
Fixpoint run (K : Crypto) (calls : list (Env * Call)) (s : State) : State :=
  match calls with
  | [] => s
  | (env, c) :: rest => run K rest (transact K env c s)
  end.

(** Does this call create the financing record of [id]?  Only a successful
    [withdrawFinancing] executes the record-creating assignment. *)
Definition creates_record (K : Crypto) (id : N) (env : Env) (c : Call) (s : State)
  : bool :=
  match c with
  | call_withdrawFinancing id' _ _ _ _ _ _ =>
      bool_decide (id' = id) && succeeds (execute K env c s)
  | _ => false
  end.

(** How many times a record for [id] is created along a run. *)
Fixpoint creations (K : Crypto) (id : N) (calls : list (Env * Call)) (s : State)
  : nat :=
  match calls with
  | [] => 0%nat
  | (env, c) :: rest =>
      ((if creates_record K id env c s then 1 else 0) +
       creations K id rest (transact K env c s))%nat
  end.

(** Two records that agree on every field but [repaid]. *)
Definition same_terms (r r' : FinancingRecord) : Prop :=
  invoiceId r' = invoiceId r /\
  supplier r' = supplier r /\
  payoutAmount r' = payoutAmount r /\
  repaymentAmount r' = repaymentAmount r /\
  dueDate r' = dueDate r /\
  timestamp r' = timestamp r.

(** ** A concrete deployment, used for examples *)

(** A toy signature scheme: the digest is ignored and a one-word signature
    names its signer. *)
Definition demo_crypto : Crypto :=
  mkCrypto (fun _ _ _ _ _ _ _ => 0)
           (fun _ signature =>
              match signature with
              | [signer] => Some signer
              | _ => None
              end).

(** Caller [who] at time [now]; every native transfer succeeds. *)
Definition demo_env (who now : N) : Env := mkEnv who now (fun _ _ => true).

(** Caller [who] at time [now]; every native transfer fails. *)
Definition demo_env_failing (who now : N) : Env := mkEnv who now (fun _ _ => false).

(** Account 1 deploys with 1,000,000 and authorizer wallet 2. *)
Definition demo_deployed : State :=
  mkState 2 1000000 1000000 0 0 1000 1 ∅ {[1 := 1000000]} ∅
    ({[(AEGIS_ROLE, 2)]} ∪
     ({[(ADMIN_ROLE, 1)]} ∪ ({[(DEFAULT_ADMIN_ROLE, 1)]} ∪ ∅)))
    false.

Definition demo_dueDate : N := 1000 + 90 * 86400.

(** Supplier 5 draws 98,000 against invoice 77, to repay 100,000 in 90 days. *)
Definition demo_financing : Call :=
  call_withdrawFinancing 77 98000 100000 demo_dueDate 1 2000 [2].

Definition demo_financed : State :=
  transact demo_crypto (demo_env 5 1000) demo_financing demo_deployed.

(** The deployer grants [ADMIN_ROLE] to account 3. *)
Definition demo_delegated : State :=
  transact demo_crypto (demo_env 1 1000) (call_grantRole ADMIN_ROLE 3)
    demo_deployed.


(** ** Further definitions: sums over the tables, counting, frames *)

(** The sum of [f] over the values of a table. *)
Definition map_sum {A} (f : A -> N) (m : gmap N A) : N :=
  map_fold (fun _ x acc => f x + acc) 0 m.

(** The sum of all LP positions. *)
Definition totalDeposits (s : State) : N :=
  map_sum (fun v : N => v) (lpDeposits s).

(** The sum of the payouts of all financing records, repaid or not. *)
Definition financedPrincipal (s : State) : N :=
  map_sum payoutAmount (financingRecords s).

(** Pool size not attributed to any LP position. *)
Definition unattributed (s : State) : N :=
  totalPoolSize s - totalDeposits s.

(** A step that writes configuration only: the wallet (to a non-zero
    address), the fee rate (to at most 5000), the fee receiver, the role
    table. *)
Definition config_step (s s' : State) : Prop :=
  totalPoolSize s' = totalPoolSize s /\
  availableLiquidity s' = availableLiquidity s /\
  totalFinanced s' = totalFinanced s /\
  totalInterestEarned s' = totalInterestEarned s /\
  usedInvoices s' = usedInvoices s /\
  lpDeposits s' = lpDeposits s /\
  financingRecords s' = financingRecords s /\
  _status s' = _status s /\
  (aegisServerWallet s' = aegisServerWallet s \/ aegisServerWallet s' <> 0) /\
  (protocolFeeRate s' = protocolFeeRate s \/ protocolFeeRate s' <= 5000).

(** Is this call a successful repayment of [id]? *)
Definition settles (K : Crypto) (id : N) (env : Env) (c : Call) (s : State) : bool :=
  match c with
  | call_repay _ id' => bool_decide (id' = id) && succeeds (execute K env c s)
  | _ => false
  end.

(** How many times [id] is repaid along a run. *)
Fixpoint settlements (K : Crypto) (id : N) (calls : list (Env * Call)) (s : State)
  : nat :=
  match calls with
  | [] => 0%nat
  | (env, c) :: rest =>
      ((if settles K id env c s then 1 else 0) +
       settlements K id rest (transact K env c s))%nat
  end.

(** Is this call a deposit, plain transfer or withdrawal made by [account]? *)
Definition moves_position (account : N) (env : Env) (c : Call) : bool :=
  match c with
  | call_deposit _ | call_receive _ | call_withdraw _ =>
      bool_decide (msg_sender env = account)
  | _ => false
  end.

(** The calls that move money; the others write configuration or roles. *)
Definition ledger_call (c : Call) : bool :=
  match c with
  | call_deposit _ | call_receive _ | call_withdraw _
  | call_withdrawFinancing _ _ _ _ _ _ _ | call_repay _ _ => true
  | _ => false
  end.

(** No sum or product of [repay] exceeds a [uint256]. *)
Definition repay_fits (record : FinancingRecord) (now : N) (s : State) : Prop :=
  lateFee_safe record now /\
  requiredFor record now <= MAX_UINT256 /\
  totalInterestFor record now * protocolFeeRate s <= MAX_UINT256 /\
  availableLiquidity s +
    (payoutAmount record + lpInterestFor record now (protocolFeeRate s))
    <= MAX_UINT256 /\
  totalPoolSize s + lpInterestFor record now (protocolFeeRate s) <= MAX_UINT256 /\
  totalInterestEarned s + totalInterestFor record now <= MAX_UINT256.

(** No account holds [DEFAULT_ADMIN_ROLE]. *)
Definition no_default_admin (s : State) : Prop :=
  forall account, hasRole DEFAULT_ADMIN_ROLE account s = false.

(** A body that neither reads nor writes the role table. *)
Definition roles_agnostic (body : State -> Result (State * list Event)) : Prop :=
  forall R s,
    body (set_roles R s) =
    match body s with
    | Ok (s', evs) => Ok (set_roles R s', evs)
    | Revert e => Revert e
    end.

(** The deployer of the demo pool gives up [DEFAULT_ADMIN_ROLE]. *)
Definition demo_renounced : State :=
  transact demo_crypto (demo_env 1 1000)
    (call_renounceRole DEFAULT_ADMIN_ROLE 1) demo_deployed.
(** * Verification *)

(** ** Inversion of monadic code *)

Lemma bind_Ok {A B} (c : Result A) (k : A -> Result B) (b : B) :
  (c ≫= k) = Ok b <-> exists a, c = Ok a /\ k a = Ok b.
Proof.
  destruct c as [a|e]; simpl; split.
  - eauto.
  - intros (a' & [= ->] & H). exact H.
  - discriminate.
  - intros (a' & [=] & _).
Qed.

Lemma Ok_inj {A} (a b : A) : Ok a = Ok b -> a = b.
Proof. by intros [= ->]. Qed.

Lemma require_Ok cond e u : require cond e = Ok u <-> cond = true.
Proof. destruct cond, u; simpl; split; (done || discriminate). Qed.

Lemma add_Ok a b c : add a b = Ok c <-> a + b <= MAX_UINT256 /\ c = a + b.
Proof.
  unfold add. destruct (N.leb_spec (a + b) MAX_UINT256); split.
  - intros [= <-]; done.
  - intros [_ ->]; done.
  - discriminate.
  - intros [? _]; lia.
Qed.

Lemma sub_Ok a b c : sub a b = Ok c <-> b <= a /\ c = a - b.
Proof.
  unfold sub. destruct (N.leb_spec b a); split.
  - intros [= <-]; done.
  - intros [_ ->]; done.
  - discriminate.
  - intros [? _]; lia.
Qed.

Lemma mul_Ok a b c : mul a b = Ok c <-> a * b <= MAX_UINT256 /\ c = a * b.
Proof.
  unfold mul. destruct (N.leb_spec (a * b) MAX_UINT256); split.
  - intros [= <-]; done.
  - intros [_ ->]; done.
  - discriminate.
  - intros [? _]; lia.
Qed.

Lemma add_in_range a b : a + b <= MAX_UINT256 -> add a b = Ok (a + b).
Proof. intros H. by apply add_Ok. Qed.

Lemma sub_in_range a b : b <= a -> sub a b = Ok (a - b).
Proof. intros H. by apply sub_Ok. Qed.

Lemma mul_in_range a b : a * b <= MAX_UINT256 -> mul a b = Ok (a * b).
Proof. intros H. by apply mul_Ok. Qed.

(** Peel a successful monadic computation, one bind at a time. *)
Ltac inv_ok H :=
  repeat match type of H with
  | (_ ≫= _) = Ok _ =>
      let a := fresh "a" in
      let E := fresh "E" in
      apply bind_Ok in H; destruct H as (a & E & H); inv_ok E
  | require _ _ = Ok _ => apply require_Ok in H
  | add _ _ = Ok _ => apply add_Ok in H; destruct H as [? ->]
  | sub _ _ = Ok _ => apply sub_Ok in H; destruct H as [? ->]
  | mul _ _ = Ok _ => apply mul_Ok in H; destruct H as [? ->]
  | Ok _ = Ok _ => apply Ok_inj in H
  | Revert _ = Ok _ => discriminate H
  | (_, _) = (_, _) => apply pair_equal_spec in H; destruct H as [? ?]
  end.

(** Turn the boolean tests left by [inv_ok] into propositions. *)
Ltac reflect_tests :=
  repeat match goal with
  | H : negb _ = true |- _ => apply negb_true_iff in H
  | H : (_ <? _) = true |- _ => apply N.ltb_lt in H
  | H : (_ <=? _) = true |- _ => apply N.leb_le in H
  | H : (_ =? _) = true |- _ => apply N.eqb_eq in H
  | H : (_ <? _) = false |- _ => apply N.ltb_ge in H
  | H : (_ <=? _) = false |- _ => apply N.leb_gt in H
  | H : bool_decide _ = true |- _ => apply bool_decide_eq_true in H
  | H : bool_decide _ = false |- _ => apply bool_decide_eq_false in H
  end.

(** Run the monad one step: binds and [require]s on known values. *)
Ltac next := cbn [mbind Result_bind require negb].

(** Decide a closed decidable proposition by evaluation. *)
Ltac by_compute :=
  match goal with
  | |- ?P => refine (@bool_decide_unpack P _ _); vm_compute; exact I
  end.

(** Reduce field reads of updated states, and nothing else. *)
Ltac fields :=
  cbn [aegisServerWallet totalPoolSize availableLiquidity totalFinanced
       totalInterestEarned protocolFeeRate protocolFeeReceiver usedInvoices
       lpDeposits financingRecords _roles _status
       set_aegisServerWallet set_totalPoolSize set_availableLiquidity
       set_totalFinanced set_totalInterestEarned set_protocolFeeRate
       set_protocolFeeReceiver set_usedInvoices set_lpDeposits
       set_financingRecords set_roles set_status
       credit debit reserve release financed repaidState
       invoiceId supplier payoutAmount repaymentAmount dueDate timestamp
       repaid set_repaid] in *.

Lemma nonReentrant_entered body s :
  _status s = true -> nonReentrant body s = Revert ReentrancyBlocked.
Proof. intros H. unfold nonReentrant. rewrite H. reflexivity. Qed.

Lemma set_status_idle s : _status s = false -> set_status false s = s.
Proof. destruct s; simpl. by intros ->. Qed.

(** ** Outstanding principal *)

Lemma outstanding_insert_fresh (m : gmap N FinancingRecord) i r :
  m !! i = None -> outstanding (<[i:=r]> m) = owed r + outstanding m.
Proof.
  intros Hi. unfold outstanding.
  rewrite map_fold_insert_L; [done| |done].
  intros. lia.
Qed.

Lemma outstanding_delete (m : gmap N FinancingRecord) i r :
  m !! i = Some r -> outstanding m = owed r + outstanding (delete i m).
Proof.
  intros Hi. unfold outstanding.
  rewrite (map_fold_delete_L _ _ i r m); [done| |done].
  intros. lia.
Qed.

Lemma outstanding_insert_over (m : gmap N FinancingRecord) i r0 r :
  m !! i = Some r0 ->
  outstanding (<[i:=r]> m) + owed r0 = owed r + outstanding m.
Proof.
  intros Hi. rewrite (outstanding_delete m i r0 Hi).
  rewrite <- (insert_delete_eq m i r).
  rewrite outstanding_insert_fresh by apply lookup_delete_eq. lia.
Qed.


Lemma set_status_twice b1 b2 s : set_status b1 (set_status b2 s) = set_status b1 s.
Proof. reflexivity. Qed.

(** Outside a guarded call the guard is transparent. *)
Lemma nonReentrant_idle body s :
  status_agnostic body -> _status s = false -> nonReentrant body s = body s.
Proof.
  intros Hb Hs. unfold nonReentrant. rewrite Hs. simpl.
  rewrite Hb. pose proof (Hb false s) as Hf.
  rewrite (set_status_idle s Hs) in Hf.
  destruct (body s) as [[s' evs]|e]; simpl; [|done].
  rewrite set_status_twice. congruence.
Qed.

Ltac solve_status_agnostic :=
  intros ? [];
  repeat (simpl; unfold require, add, sub, mul; simpl;
          try reflexivity; case_match).

Lemma _processDeposit_agnostic depositor amount :
  status_agnostic (_processDeposit depositor amount).
Proof. unfold _processDeposit, getLPBalance. solve_status_agnostic. Qed.

Lemma withdraw_body_agnostic env amount : status_agnostic (withdraw_body env amount).
Proof. unfold withdraw_body, getLPBalance. solve_status_agnostic. Qed.

Lemma withdrawFinancing_body_agnostic K env id payout repayment due nonce deadline sig :
  status_agnostic
    (withdrawFinancing_body K env id payout repayment due nonce deadline sig).
Proof.
  unfold withdrawFinancing_body, recordFinancing, isInvoiceFinanced.
  solve_status_agnostic.
Qed.

Lemma repay_body_agnostic env value id : status_agnostic (repay_body env value id).
Proof.
  unfold repay_body, getFinancingRecord, isInvoiceFinanced.
  intros b s. destruct (lateFeeOf _ _) eqn:E.
  all: revert b s E; solve_status_agnostic.
Qed.

Lemma guarded_Ok body s r :
  status_agnostic body ->
  nonReentrant body s = Ok r <-> _status s = false /\ body s = Ok r.
Proof.
  intros Hb. split.
  - intros H. destruct (_status s) eqn:Hs.
    + rewrite nonReentrant_entered in H by done. discriminate.
    + rewrite nonReentrant_idle in H by done. done.
  - intros [Hs H]. rewrite nonReentrant_idle by done. done.
Qed.

(** ** What each entry point does when it succeeds *)

Lemma _processDeposit_Ok depositor amount s s' evs :
  _processDeposit depositor amount s = Ok (s', evs) <->
  0 < amount /\
  getLPBalance depositor s + amount <= MAX_UINT256 /\
  totalPoolSize s + amount <= MAX_UINT256 /\
  availableLiquidity s + amount <= MAX_UINT256 /\
  s' = credit depositor amount s /\
  evs = [Deposit depositor amount (totalPoolSize s + amount)].
Proof.
  unfold _processDeposit. split.
  - intros H. inv_ok H. simpl in *. reflect_tests. subst.
    repeat split; done.
  - intros (Hpos & Hlp & Htot & Hav & -> & ->).
    apply N.ltb_lt in Hpos. rewrite Hpos. simpl.
    rewrite add_in_range by done. simpl.
    rewrite add_in_range by done. simpl.
    rewrite add_in_range by done. reflexivity.
Qed.

Lemma deposit_Ok env value s s' evs :
  deposit env value s = Ok (s', evs) <->
  _status s = false /\
  0 < value /\
  getLPBalance (msg_sender env) s + value <= MAX_UINT256 /\
  totalPoolSize s + value <= MAX_UINT256 /\
  availableLiquidity s + value <= MAX_UINT256 /\
  s' = credit (msg_sender env) value s /\
  evs = [Deposit (msg_sender env) value (totalPoolSize s + value)].
Proof.
  unfold deposit.
  rewrite (guarded_Ok _ _ _ (_processDeposit_agnostic _ _)).
  by rewrite _processDeposit_Ok.
Qed.

Lemma withdraw_body_Ok env amount s s' evs :
  withdraw_body env amount s = Ok (s', evs) <->
  0 < amount /\
  amount <= getLPBalance (msg_sender env) s /\
  amount <= availableLiquidity s /\
  amount <= totalPoolSize s /\
  call_value env (msg_sender env) amount = true /\
  s' = debit (msg_sender env) amount s /\
  evs = [Withdrawal (msg_sender env) amount (totalPoolSize s - amount)].
Proof.
  unfold withdraw_body. split.
  - intros H. inv_ok H. simpl in *. reflect_tests. subst.
    repeat split; done.
  - intros (Hpos & Hlp & Hav & Htot & Hcall & -> & ->).
    apply N.ltb_lt in Hpos. rewrite Hpos. simpl.
    rewrite (proj2 (N.leb_le _ _) Hlp), (proj2 (N.leb_le _ _) Hav). simpl.
    rewrite sub_in_range by done. simpl.
    rewrite sub_in_range by done. simpl.
    rewrite sub_in_range by done. simpl.
    rewrite Hcall. reflexivity.
Qed.

Lemma withdraw_Ok env amount s s' evs :
  withdraw env amount s = Ok (s', evs) <->
  _status s = false /\
  0 < amount /\
  amount <= getLPBalance (msg_sender env) s /\
  amount <= availableLiquidity s /\
  amount <= totalPoolSize s /\
  call_value env (msg_sender env) amount = true /\
  s' = debit (msg_sender env) amount s /\
  evs = [Withdrawal (msg_sender env) amount (totalPoolSize s - amount)].
Proof.
  unfold withdraw.
  rewrite (guarded_Ok _ _ _ (withdraw_body_agnostic _ _)).
  by rewrite withdraw_body_Ok.
Qed.

Lemma isInvoiceFinanced_true id s : isInvoiceFinanced id s = true <-> id ∈ usedInvoices s.
Proof. unfold isInvoiceFinanced. apply bool_decide_eq_true. Qed.

Lemma isInvoiceFinanced_false id s : isInvoiceFinanced id s = false <-> id ∉ usedInvoices s.
Proof. unfold isInvoiceFinanced. apply bool_decide_eq_false. Qed.

Lemma recordFinancing_Ok env id payout repayment due s s' :
  recordFinancing env id payout repayment due s = Ok s' <->
  payout <= availableLiquidity s /\
  totalFinanced s + payout <= MAX_UINT256 /\
  s' = financed id (msg_sender env) payout repayment due (block_timestamp env) s.
Proof.
  unfold recordFinancing. split.
  - intros H. inv_ok H. simpl in *. subst. done.
  - intros (Hav & Hfin & ->). simpl.
    rewrite sub_in_range by done. simpl.
    rewrite add_in_range by done. reflexivity.
Qed.

Lemma withdrawFinancing_body_Ok K env id payout repayment due nonce deadline sig s s' evs :
  withdrawFinancing_body K env id payout repayment due nonce deadline sig s
    = Ok (s', evs) <->
(id ∉ usedInvoices s) /\
  block_timestamp env <= deadline /\
  payout <= availableLiquidity s /\
  payout < repayment /\
  block_timestamp env < due /\
  recoverSigner K env id payout repayment due nonce deadline sig
    = Some (aegisServerWallet s) /\
  totalFinanced s + payout <= MAX_UINT256 /\
  call_value env (msg_sender env) payout = true /\
  s' = financed id (msg_sender env) payout repayment due (block_timestamp env) s /\
  evs = [FinancingWithdrawn id (msg_sender env) payout (block_timestamp env)].
Proof.
  unfold withdrawFinancing_body. split.
  - intros H. inv_ok H.
    destruct (recoverSigner _ _ _ _ _ _ _ _ _) as [signer|] eqn:Hrec; [|done].
    inv_ok H.
    match goal with
    | HR : recordFinancing _ _ _ _ _ _ = Ok _ |- _ =>
        apply recordFinancing_Ok in HR; destruct HR as (_ & ? & ->)
    end.
    unfold isInvoiceFinanced in *. reflect_tests. subst. done.
  - intros (Hid & Hdl & Hav & Hterms & Hdue & Hrec & Hfin & Hcall & -> & ->).
    apply isInvoiceFinanced_false in Hid. rewrite Hid. simpl.
    rewrite (proj2 (N.leb_le _ _) Hdl), (proj2 (N.leb_le _ _) Hav). simpl.
    rewrite (proj2 (N.ltb_lt _ _) Hterms), (proj2 (N.ltb_lt _ _) Hdue). simpl.
    rewrite Hrec, N.eqb_refl. simpl.
    rewrite (proj2 (recordFinancing_Ok _ _ _ _ _ _ _) (conj Hav (conj Hfin eq_refl))).
    simpl. rewrite Hcall. reflexivity.
Qed.

Lemma withdrawFinancing_Ok K env id payout repayment due nonce deadline sig s s' evs :
  withdrawFinancing K env id payout repayment due nonce deadline sig s
    = Ok (s', evs) <->
  _status s = false /\
(id ∉ usedInvoices s) /\
  block_timestamp env <= deadline /\
  payout <= availableLiquidity s /\
  payout < repayment /\
  block_timestamp env < due /\
  recoverSigner K env id payout repayment due nonce deadline sig
    = Some (aegisServerWallet s) /\
  totalFinanced s + payout <= MAX_UINT256 /\
  call_value env (msg_sender env) payout = true /\
  s' = financed id (msg_sender env) payout repayment due (block_timestamp env) s /\
  evs = [FinancingWithdrawn id (msg_sender env) payout (block_timestamp env)].
Proof.
  unfold withdrawFinancing.
  rewrite (guarded_Ok _ _ _ (withdrawFinancing_body_agnostic _ _ _ _ _ _ _ _ _)).
  by rewrite withdrawFinancing_body_Ok.
Qed.

(** ** Fees *)

Lemma scaled_percent x k : 0 < k -> x * (k * 100) / 10000 = x * k / 100.
Proof.
  intros Hk. replace 10000 with (100 * 100) by reflexivity.
  rewrite N.mul_assoc. apply N.Div0.div_mul_cancel_r. lia.
Qed.

Lemma lateFeeOf_Ok record now fee :
  lateFeeOf record now = Ok fee <->
  lateFee_safe record now /\
  fee = lateFee_spec (repaymentAmount record) (dueDate record) now.
Proof.
  unfold lateFeeOf, lateFee_safe, lateFee_spec, SECONDS_PER_DAY.
  destruct (N.ltb_spec (dueDate record) now) as [Hlate|Hontime].
  - rewrite (proj2 (N.leb_gt _ _) Hlate).
    assert (Hfee : forall days, repaymentAmount record * days * 100 / 10000
                   = repaymentAmount record * days * 1 / 100).
    { intros days. rewrite <- !N.mul_assoc, N.mul_1_r.
      rewrite (N.mul_assoc _ days 100).
      replace 10000 with (100 * 100) by reflexivity.
      apply N.Div0.div_mul_cancel_r. lia. }
    assert (Hcap : repaymentAmount record * 3000 / 10000
                   = repaymentAmount record * 30 / 100).
    { apply (scaled_percent _ 30). lia. }
    split.
    + intros H. inv_ok H. subst. split; [intros _; split; lia|].
      rewrite Hfee, Hcap. case_match; reflect_tests; lia.
    + intros [Hsafe ->]. destruct (Hsafe Hlate) as [H1 H2].
      rewrite sub_in_range by lia. simpl.
      rewrite mul_in_range by nia. simpl.
      rewrite mul_in_range by lia. simpl.
      rewrite mul_in_range by lia. simpl.
      rewrite Hfee, Hcap. f_equal. case_match; reflect_tests; lia.
  - rewrite (proj2 (N.leb_le _ _) Hontime). split.
    + intros [= <-]. split; [intros ?; lia|done].
    + intros [_ ->]. done.
Qed.

Lemma repay_body_Ok env value id s s' evs :
  let record := getFinancingRecord id s in
  let now := block_timestamp env in
  let rate := protocolFeeRate s in
  repay_body env value id s = Ok (s', evs) <->
  (id ∈ usedInvoices s) /\
  repaid record = false /\
  repay_safe record now s /\
  requiredFor record now <= value /\
  (0 < protocolFeeFor record now rate ->
   call_value env (protocolFeeReceiver s) (protocolFeeFor record now rate) = true) /\
  (requiredFor record now < value ->
   call_value env (msg_sender env) (value - requiredFor record now) = true) /\
  s' = repaidState id (lpInterestFor record now rate) (totalInterestFor record now) s /\
  evs = [Repayment id (msg_sender env) value (totalInterestFor record now)
           (lateFeeFor record now);
         InterestDistributed (lpInterestFor record now rate)
           (protocolFeeFor record now rate)].
Proof.
  intros record now rate. subst rate. unfold repay_body. fold record. fold now.
  split.
  - intros H. inv_ok H.
    match goal with
    | HL : lateFeeOf _ _ = Ok _ |- _ =>
        apply lateFeeOf_Ok in HL; destruct HL as [Hsafe ->]
    end.
    unfold repay_safe, requiredFor, lpInterestFor, protocolFeeFor,
      protocolFee_spec, totalInterestFor, lateFeeFor in *.
    fold record. fields. fold record. unfold isInvoiceFinanced in *.
    reflect_tests.
    destruct (N.ltb_spec (dueDate record) now) as [Hlate|Hontime].
    + inv_ok E2. subst.
      destruct (N.ltb_spec 0
        (((repaymentAmount record - payoutAmount record +
           lateFee_spec (repaymentAmount record) (dueDate record) now) *
          protocolFeeRate s) / 10000)) as [Hfee|Hfee];
      destruct (N.ltb_spec
        (repaymentAmount record +
         lateFee_spec (repaymentAmount record) (dueDate record) now) value)
        as [Hexc|Hexc];
      inv_ok E4; inv_ok E5; subst;
      repeat split; try done; try lia; try (apply Hsafe; lia).
    + inv_ok E2. subst.
      assert (Hz : lateFee_spec (repaymentAmount record) (dueDate record) now = 0).
      { unfold lateFee_spec. by rewrite (proj2 (N.leb_le _ _) Hontime). }
      rewrite Hz in *. rewrite !N.add_0_r in *.
      destruct (N.ltb_spec 0
        (((repaymentAmount record - payoutAmount record) *
          protocolFeeRate s) / 10000)) as [Hfee|Hfee];
      destruct (N.ltb_spec (repaymentAmount record) value) as [Hexc|Hexc];
      inv_ok E4; inv_ok E5; subst;
      repeat split; try done; try lia; try (apply Hsafe; lia).
  - intros (Hid & Hrep & Hsafe & Hreq & Hfee & Hexc & -> & ->).
    destruct Hsafe as (Hlf & Hreqmax & Hpay & Hti & Hmul & Hpf & Hav & Htot & Hearn).
    apply isInvoiceFinanced_true in Hid. rewrite Hid, Hrep. next.
    rewrite (proj2 (lateFeeOf_Ok record now _) (conj Hlf eq_refl)). next.
    fold (lateFeeFor record now).
    assert (Hstep : (if dueDate record <? now
                     then add (repaymentAmount record) (lateFeeFor record now)
                     else Ok (repaymentAmount record))
                    = Ok (requiredFor record now)).
    { unfold requiredFor in *.
      destruct (N.ltb_spec (dueDate record) now) as [Hlate|Hontime].
      - apply add_in_range. auto.
      - f_equal. unfold lateFeeFor, lateFee_spec.
        rewrite (proj2 (N.leb_le _ _) Hontime). lia. }
    rewrite Hstep. next.
    rewrite (proj2 (N.leb_le _ _) Hreq). next.
    rewrite (sub_in_range _ _ Hpay). next.
    rewrite (add_in_range _ _ Hti). next.
    fold (totalInterestFor record now).
    rewrite (mul_in_range _ _ Hmul). next.
    fold (protocolFee_spec (totalInterestFor record now) (protocolFeeRate s)).
    fold (protocolFeeFor record now (protocolFeeRate s)).
    rewrite (sub_in_range _ _ Hpf). next.
    fold (lpInterestFor record now (protocolFeeRate s)).
    rewrite (add_in_range (payoutAmount record) _) by lia. next. fields.
    rewrite (add_in_range _ _ Hav). next.
    rewrite (add_in_range _ _ Htot). next.
    rewrite (add_in_range _ _ Hearn). next.
    destruct (N.ltb_spec 0 (protocolFeeFor record now (protocolFeeRate s)));
      [rewrite Hfee by done|]; next;
      (destruct (N.ltb_spec (requiredFor record now) value);
       [rewrite sub_in_range by lia; next; rewrite Hexc by done|]);
      reflexivity.
Qed.

Lemma repay_Ok env value id s s' evs :
  let record := getFinancingRecord id s in
  let now := block_timestamp env in
  let rate := protocolFeeRate s in
  repay env value id s = Ok (s', evs) <->
  _status s = false /\
  (id ∈ usedInvoices s) /\
  repaid record = false /\
  repay_safe record now s /\
  requiredFor record now <= value /\
  (0 < protocolFeeFor record now rate ->
   call_value env (protocolFeeReceiver s) (protocolFeeFor record now rate) = true) /\
  (requiredFor record now < value ->
   call_value env (msg_sender env) (value - requiredFor record now) = true) /\
  s' = repaidState id (lpInterestFor record now rate) (totalInterestFor record now) s /\
  evs = [Repayment id (msg_sender env) value (totalInterestFor record now)
           (lateFeeFor record now);
         InterestDistributed (lpInterestFor record now rate)
           (protocolFeeFor record now rate)].
Proof.
  intros record now rate. unfold repay.
  rewrite (guarded_Ok _ _ _ (repay_body_agnostic _ _ _)).
  by rewrite repay_body_Ok.
Qed.

(** ** Access control *)

Lemma onlyRole_Ok env role s u :
  onlyRole env role s = Ok u <-> hasRole role (msg_sender env) s = true.
Proof. unfold onlyRole. apply require_Ok. Qed.

Lemma onlyRole_denied env role s :
  hasRole role (msg_sender env) s = false ->
  onlyRole env role s = Revert (Unauthorized (msg_sender env) role).
Proof. intros H. unfold onlyRole. by rewrite H. Qed.

Lemma _grantRole_ledger env role account s :
  same_ledger s (_grantRole env role account s).1.
Proof. unfold _grantRole. case_match; repeat split. Qed.

Lemma _revokeRole_ledger env role account s :
  same_ledger s (_revokeRole env role account s).1.
Proof. unfold _revokeRole. case_match; repeat split. Qed.

Lemma _grantRole_roles env role account s :
  _roles (_grantRole env role account s).1 = {[(role, account)]} ∪ _roles s.
Proof.
  unfold _grantRole, hasRole. case_match; reflect_tests; simpl; [|done].
  symmetry. apply subseteq_union_1_L. by apply singleton_subseteq_l.
Qed.

Lemma _revokeRole_roles env role account s :
  _roles (_revokeRole env role account s).1 = _roles s ∖ {[(role, account)]}.
Proof.
  unfold _revokeRole, hasRole. case_match; reflect_tests; simpl; [done|].
  symmetry. apply difference_disjoint_L. by apply disjoint_singleton_r.
Qed.

Lemma grantRole_Ok env role account s s' evs :
  grantRole env role account s = Ok (s', evs) <->
  hasRole DEFAULT_ADMIN_ROLE (msg_sender env) s = true /\
  (s', evs) = _grantRole env role account s.
Proof.
  unfold grantRole, getRoleAdmin. split.
  - intros H. inv_ok H. apply onlyRole_Ok in E. done.
  - intros [Hr ->]. rewrite (proj2 (onlyRole_Ok _ _ _ tt) Hr). reflexivity.
Qed.

Lemma revokeRole_Ok env role account s s' evs :
  revokeRole env role account s = Ok (s', evs) <->
  hasRole DEFAULT_ADMIN_ROLE (msg_sender env) s = true /\
  (s', evs) = _revokeRole env role account s.
Proof.
  unfold revokeRole, getRoleAdmin. split.
  - intros H. inv_ok H. apply onlyRole_Ok in E. done.
  - intros [Hr ->]. rewrite (proj2 (onlyRole_Ok _ _ _ tt) Hr). reflexivity.
Qed.

Lemma renounceRole_Ok env role confirmation s s' evs :
  renounceRole env role confirmation s = Ok (s', evs) <->
  confirmation = msg_sender env /\
  (s', evs) = _revokeRole env role confirmation s.
Proof.
  unfold renounceRole. split.
  - intros H. inv_ok H. reflect_tests. done.
  - intros [-> ->]. rewrite N.eqb_refl. reflexivity.
Qed.

Lemma updateProtocolFeeRate_Ok env newRate s s' evs :
  updateProtocolFeeRate env newRate s = Ok (s', evs) <->
  hasRole ADMIN_ROLE (msg_sender env) s = true /\
  newRate <= 5000 /\
  s' = set_protocolFeeRate newRate s /\ evs = [].
Proof.
  unfold updateProtocolFeeRate. split.
  - intros H. inv_ok H. apply onlyRole_Ok in E. reflect_tests. done.
  - intros (Hr & Hle & -> & ->).
    rewrite (proj2 (onlyRole_Ok _ _ _ tt) Hr). next.
    rewrite (proj2 (N.leb_le _ _) Hle). reflexivity.
Qed.

Lemma updateProtocolFeeReceiver_Ok env newReceiver s s' evs :
  updateProtocolFeeReceiver env newReceiver s = Ok (s', evs) <->
  hasRole ADMIN_ROLE (msg_sender env) s = true /\
  newReceiver <> 0 /\
  s' = set_protocolFeeReceiver newReceiver s /\ evs = [].
Proof.
  unfold updateProtocolFeeReceiver. split.
  - intros H. inv_ok H. apply onlyRole_Ok in E. reflect_tests.
    apply N.eqb_neq in E0. done.
  - intros (Hr & Hne & -> & ->).
    rewrite (proj2 (onlyRole_Ok _ _ _ tt) Hr). next.
    rewrite (proj2 (N.eqb_neq _ _) Hne). reflexivity.
Qed.

Lemma _revokeRole_keeps env role account s r a :
  (r, a) <> (role, account) ->
  hasRole r a (_revokeRole env role account s).1 = hasRole r a s.
Proof.
  intros Hne. unfold hasRole. rewrite _revokeRole_roles.
  apply bool_decide_ext. rewrite elem_of_difference, elem_of_singleton. tauto.
Qed.

Lemma updateAegisWallet_Ok env newWallet s s' evs :
  updateAegisWallet env newWallet s = Ok (s', evs) <->
  hasRole ADMIN_ROLE (msg_sender env) s = true /\
  newWallet <> 0 /\
  hasRole DEFAULT_ADMIN_ROLE (msg_sender env) s = true /\
  (s', evs) = rotated env newWallet s.
Proof.
  unfold updateAegisWallet, rotated. split.
  - intros H.
    apply bind_Ok in H. destruct H as (? & Hr & H). apply onlyRole_Ok in Hr.
    apply bind_Ok in H. destruct H as (? & Hne & H).
    apply require_Ok, negb_true_iff, N.eqb_neq in Hne.
    apply bind_Ok in H. destruct H as ([s2 evs2] & H2 & H).
    apply bind_Ok in H. destruct H as ([s3 evs3] & H3 & H).
    apply revokeRole_Ok in H2. destruct H2 as [Hd H2].
    apply grantRole_Ok in H3. destruct H3 as [_ H3].
    fields. rewrite <- H2, <- H3. apply Ok_inj in H. done.
  - intros (Hr & Hne & Hd & Heq).
    rewrite (proj2 (onlyRole_Ok _ _ _ tt) Hr). next.
    rewrite (proj2 (N.eqb_neq _ _) Hne). next.
    destruct (_revokeRole _ _ _ _) as [s2 evs2] eqn:E2.
    destruct (_grantRole _ _ _ s2) as [s3 evs3] eqn:E3.
    rewrite (proj2 (revokeRole_Ok _ _ _ _ s2 evs2)) by (split; [done|by rewrite E2]).
    next.
    assert (Hd2 : hasRole DEFAULT_ADMIN_ROLE (msg_sender env) s2 = true).
    { replace s2 with (_revokeRole env AEGIS_ROLE (aegisServerWallet s)
                         (set_aegisServerWallet newWallet s)).1 by (by rewrite E2).
      rewrite _revokeRole_keeps; [done|]. intros Hpair. by inversion Hpair. }
    rewrite (proj2 (grantRole_Ok _ _ _ _ s3 evs3)) by (split; [done|by rewrite E3]).
    next. by rewrite Heq.
Qed.

(** ** The accounting invariant *)

Lemma Inv_same_ledger s s' : same_ledger s s' -> Inv s -> Inv s'.
Proof.
  intros (_ & Ht & Ha & _ & _ & _ & _ & Hu & _ & Hf & _) [Hb Hr].
  split; rewrite ?Ht, ?Ha, ?Hu, ?Hf; done.
Qed.

Lemma same_ledger_trans s1 s2 s3 :
  same_ledger s1 s2 -> same_ledger s2 s3 -> same_ledger s1 s3.
Proof. unfold same_ledger. intros H1 H2. intuition congruence. Qed.

Lemma constructor_Ok env value wallet s evs :
  constructor env value wallet = Ok (s, evs) ->
  wallet <> 0 /\
  aegisServerWallet s = wallet /\
  totalPoolSize s = value /\
  availableLiquidity s = value /\
  totalFinanced s = 0 /\
  totalInterestEarned s = 0 /\
  protocolFeeRate s = 1000 /\
  protocolFeeReceiver s = msg_sender env /\
  usedInvoices s = ∅ /\
  financingRecords s = ∅ /\
  getLPBalance (msg_sender env) s = value /\
  _roles s = {[(AEGIS_ROLE, wallet)]} ∪
             ({[(ADMIN_ROLE, msg_sender env)]} ∪
              ({[(DEFAULT_ADMIN_ROLE, msg_sender env)]} ∪ ∅)) /\
  _status s = false.
Proof.
  unfold constructor. intros H.
  apply bind_Ok in H. destruct H as (? & Hw & H).
  apply require_Ok, negb_true_iff, N.eqb_neq in Hw.
  set (s0 := mkState wallet 0 0 0 0 1000 (msg_sender env) ∅ ∅ ∅ ∅ false) in *.
  pose proof (_grantRole_ledger env DEFAULT_ADMIN_ROLE (msg_sender env) s0) as L1.
  pose proof (_grantRole_roles env DEFAULT_ADMIN_ROLE (msg_sender env) s0) as R1.
  destruct (_grantRole env DEFAULT_ADMIN_ROLE (msg_sender env) s0) as [s1 evs1].
  pose proof (_grantRole_ledger env ADMIN_ROLE (msg_sender env) s1) as L2.
  pose proof (_grantRole_roles env ADMIN_ROLE (msg_sender env) s1) as R2.
  destruct (_grantRole env ADMIN_ROLE (msg_sender env) s1) as [s2 evs2].
  pose proof (_grantRole_ledger env AEGIS_ROLE wallet s2) as L3.
  pose proof (_grantRole_roles env AEGIS_ROLE wallet s2) as R3.
  destruct (_grantRole env AEGIS_ROLE wallet s2) as [s3 evs3].
  simpl in L1, L2, L3, R1, R2, R3.
  pose proof (same_ledger_trans _ _ _ (same_ledger_trans _ _ _ L1 L2) L3) as L.
  destruct L as (Lw & Lt & La & Lf & Li & Lr & Lc & Lu & Ll & Lk & Ls).
  rewrite R2, R1 in R3. subst s0. simpl in *.
  destruct (N.ltb_spec 0 value) as [Hpos|Hzero]; apply Ok_inj in H;
    apply pair_equal_spec in H; destruct H as [<- _]; fields.
  - unfold getLPBalance. fields. rewrite lookup_insert_eq. simpl.
    repeat split; done.
  - unfold getLPBalance. rewrite Ll, lookup_empty. simpl.
    repeat split; try done; lia.
Qed.

Lemma constructor_Inv env value wallet s evs :
  constructor env value wallet = Ok (s, evs) -> Inv s.
Proof.
  intros H. apply constructor_Ok in H.
  destruct H as (_ & _ & Ht & Ha & _ & _ & _ & _ & Hu & Hf & _).
  split.
  - rewrite Ht, Ha, Hf. unfold outstanding. rewrite map_fold_empty. lia.
  - intros id _. rewrite Hf. apply lookup_empty.
Qed.

Lemma credit_Inv account amount s : Inv s -> Inv (credit account amount s).
Proof. intros [Hb Hr]. split; fields; [lia|done]. Qed.

Lemma debit_Inv account amount s :
  amount <= availableLiquidity s -> Inv s -> Inv (debit account amount s).
Proof. intros Hle [Hb Hr]. split; fields; [lia|done]. Qed.

Lemma financed_Inv id who payout repayment due now s :
  id ∉ usedInvoices s -> payout <= availableLiquidity s ->
  Inv s -> Inv (financed id who payout repayment due now s).
Proof.
  intros Hid Hle [Hb Hr]. split; fields.
  - rewrite outstanding_insert_fresh by auto. unfold owed. fields. lia.
  - intros id' Hid'. rewrite lookup_insert_ne by set_solver.
    apply Hr. set_solver.
Qed.

Lemma repaidState_Inv id lpInterest totalInterest s :
  id ∈ usedInvoices s -> repaid (getFinancingRecord id s) = false ->
  Inv s -> Inv (repaidState id lpInterest totalInterest s).
Proof.
  intros Hid Hrep [Hb Hr]. split; fields.
  - unfold getFinancingRecord in *.
    destruct (financingRecords s !! id) as [r|] eqn:Hlook; simpl in *.
    + pose proof (outstanding_insert_over _ id r (set_repaid true r) Hlook) as Ho.
      unfold owed in Ho. fields. rewrite Hrep in Ho. lia.
    + rewrite outstanding_insert_fresh by done. unfold owed. simpl. lia.
  - intros id' Hid'. rewrite lookup_insert_ne by set_solver. auto.
Qed.

Lemma rotated_ledger env newWallet s :
  totalPoolSize (rotated env newWallet s).1 = totalPoolSize s /\
  availableLiquidity (rotated env newWallet s).1 = availableLiquidity s /\
  usedInvoices (rotated env newWallet s).1 = usedInvoices s /\
  financingRecords (rotated env newWallet s).1 = financingRecords s /\
  lpDeposits (rotated env newWallet s).1 = lpDeposits s /\
  _status (rotated env newWallet s).1 = _status s.
Proof.
  unfold rotated.
  pose proof (_revokeRole_ledger env AEGIS_ROLE (aegisServerWallet s)
                (set_aegisServerWallet newWallet s)) as L1.
  destruct (_revokeRole _ _ _ _) as [s2 evs2].
  pose proof (_grantRole_ledger env AEGIS_ROLE newWallet s2) as L2.
  destruct (_grantRole _ _ _ s2) as [s3 evs3]. simpl in *.
  destruct L1 as (? & ? & ? & ? & ? & ? & ? & ? & ? & ? & ?).
  destruct L2 as (? & ? & ? & ? & ? & ? & ? & ? & ? & ? & ?).
  fields. repeat split; congruence.
Qed.

Lemma execute_Inv K env c s s' evs :
  execute K env c s = Ok (s', evs) -> Inv s -> Inv s'.
Proof.
  destruct c; simpl; intros H HI.
  - apply deposit_Ok in H. destruct H as (_ & _ & _ & _ & _ & -> & _).
    by apply credit_Inv.
  - apply _processDeposit_Ok in H. destruct H as (_ & _ & _ & _ & -> & _).
    by apply credit_Inv.
  - apply withdraw_Ok in H. destruct H as (_ & _ & _ & ? & _ & _ & -> & _).
    by apply debit_Inv.
  - apply withdrawFinancing_Ok in H.
    destruct H as (_ & ? & _ & ? & _ & _ & _ & _ & _ & -> & _).
    by apply financed_Inv.
  - apply repay_Ok in H. destruct H as (_ & ? & ? & _ & _ & _ & _ & -> & _).
    by apply repaidState_Inv.
  - apply updateAegisWallet_Ok in H. destruct H as (_ & _ & _ & H).
    pose proof (rotated_ledger env newWallet s) as (Ht & Ha & Hu & Hf & _).
    rewrite <- H in *. simpl in *. destruct HI as [Hb Hr].
    split; rewrite ?Ht, ?Ha, ?Hu, ?Hf; done.
  - apply updateProtocolFeeRate_Ok in H. destruct H as (_ & _ & -> & _).
    destruct HI. by split.
  - apply updateProtocolFeeReceiver_Ok in H. destruct H as (_ & _ & -> & _).
    destruct HI. by split.
  - apply grantRole_Ok in H. destruct H as [_ H].
    eapply Inv_same_ledger; [|done].
    replace s' with (_grantRole env role account s).1 by (by rewrite <- H).
    apply _grantRole_ledger.
  - apply revokeRole_Ok in H. destruct H as [_ H].
    eapply Inv_same_ledger; [|done].
    replace s' with (_revokeRole env role account s).1 by (by rewrite <- H).
    apply _revokeRole_ledger.
  - apply renounceRole_Ok in H. destruct H as [_ H].
    eapply Inv_same_ledger; [|done].
    replace s' with (_revokeRole env role callerConfirmation s).1
      by (by rewrite <- H).
    apply _revokeRole_ledger.
Qed.

Lemma transact_Inv K env c s : Inv s -> Inv (transact K env c s).
Proof.
  intros HI. unfold transact.
  destruct (execute K env c s) as [[s' evs]|e] eqn:E; [|done].
  by eapply execute_Inv.
Qed.

Lemma Reachable_Inv K s : Reachable K s -> Inv s.
Proof.
  induction 1 as [env value wallet s evs Hc | env c s _ IH].
  - by eapply constructor_Inv.
  - by apply transact_Inv.
Qed.

(** No call leaves the reentrancy guard entered. *)
Lemma execute_status K env c s s' evs :
  execute K env c s = Ok (s', evs) -> _status s' = _status s.
Proof.
  destruct c; simpl; intros H.
  - apply deposit_Ok in H. by destruct H as (_ & _ & _ & _ & _ & -> & _).
  - apply _processDeposit_Ok in H. by destruct H as (_ & _ & _ & _ & -> & _).
  - apply withdraw_Ok in H. by destruct H as (_ & _ & _ & _ & _ & _ & -> & _).
  - apply withdrawFinancing_Ok in H.
    by destruct H as (_ & _ & _ & _ & _ & _ & _ & _ & _ & -> & _).
  - apply repay_Ok in H. by destruct H as (_ & _ & _ & _ & _ & _ & _ & -> & _).
  - apply updateAegisWallet_Ok in H. destruct H as (_ & _ & _ & H).
    pose proof (rotated_ledger env newWallet s) as (_ & _ & _ & _ & _ & Hst).
    by rewrite <- H in Hst.
  - apply updateProtocolFeeRate_Ok in H. by destruct H as (_ & _ & -> & _).
  - apply updateProtocolFeeReceiver_Ok in H. by destruct H as (_ & _ & -> & _).
  - apply grantRole_Ok in H. destruct H as [_ H].
    pose proof (_grantRole_ledger env role account s) as L.
    rewrite <- H in L. by destruct L as (_ & _ & _ & _ & _ & _ & _ & _ & _ & _ & ?).
  - apply revokeRole_Ok in H. destruct H as [_ H].
    pose proof (_revokeRole_ledger env role account s) as L.
    rewrite <- H in L. by destruct L as (_ & _ & _ & _ & _ & _ & _ & _ & _ & _ & ?).
  - apply renounceRole_Ok in H. destruct H as [_ H].
    pose proof (_revokeRole_ledger env role callerConfirmation s) as L.
    rewrite <- H in L. by destruct L as (_ & _ & _ & _ & _ & _ & _ & _ & _ & _ & ?).
Qed.

(** Between transactions the guard is idle: every reachable state is one
    a top-level call can start from. *)
Lemma Reachable_idle K s : Reachable K s -> _status s = false.
Proof.
  induction 1 as [env value wallet s evs Hc | env c s _ IH].
  - apply constructor_Ok in Hc.
    by destruct Hc as (_ & _ & _ & _ & _ & _ & _ & _ & _ & _ & _ & _ & ?).
  - unfold transact. destruct (execute K env c s) as [[s' evs]|e] eqn:E; [|done].
    apply execute_status in E. congruence.
Qed.

(** C1. In every state reachable from deployment by any sequence of calls
    (deposit, receive, withdraw, withdrawFinancing, repay, the admin and
    role functions), each committed or reverted as a whole, the pool
    satisfies [0 <= availableLiquidity <= totalPoolSize]. *)
Theorem liquidity_within_pool K s :
  Reachable K s -> 0 <= availableLiquidity s <= totalPoolSize s.
Proof.
  intros HR. apply Reachable_Inv in HR. destruct HR as [Hb _]. lia.
Qed.

(** ** The concrete deployment *)

Lemma demo_deployed_constructed :
  exists evs, constructor (demo_env 1 1000) 1000000 2 = Ok (demo_deployed, evs).
Proof. eexists. vm_compute. reflexivity. Qed.

Lemma demo_deployed_reachable K : Reachable K demo_deployed.
Proof.
  destruct demo_deployed_constructed as [evs H].
  by eapply Reachable_constructor.
Qed.

Lemma demo_financed_reachable : Reachable demo_crypto demo_financed.
Proof. apply Reachable_transact, demo_deployed_reachable. Qed.

(** C1 witness: the demo pool after one financing is reachable; 902,000 of
    its 1,000,000 are liquid. *)
Lemma liquidity_within_pool_witness :
  Reachable demo_crypto demo_financed /\
  0 <= availableLiquidity demo_financed <= totalPoolSize demo_financed.
Proof.
  split.
  - apply demo_financed_reachable.
  - apply (liquidity_within_pool demo_crypto), demo_financed_reachable.
Defined.

(** ** Financing: checks, rollback, replay *)

Lemma leb_decide a b : (a <=? b) = bool_decide (a <= b).
Proof. destruct (N.leb_spec a b); case_bool_decide; (done || lia). Qed.

Lemma ltb_decide a b : (a <? b) = bool_decide (a < b).
Proof. destruct (N.ltb_spec a b); case_bool_decide; (done || lia). Qed.

Lemma not_financed_decide id s :
  negb (isInvoiceFinanced id s) = bool_decide (id ∉ usedInvoices s).
Proof. unfold isInvoiceFinanced. repeat case_bool_decide; done. Qed.

(** The body of [withdrawFinancing], in closed form: the first failing
    check decides the error; past the checks, the storage writes can only
    fail on the [totalFinanced] counter and the call on the transfer. *)
Lemma withdrawFinancing_body_closed K env id payout repayment due nonce deadline sig s :
  withdrawFinancing_body K env id payout repayment due nonce deadline sig s =
  match first_failure
          (financing_checks K env id payout repayment due nonce deadline sig s)
  with
  | Some e => Revert e
  | None =>
      if bool_decide (totalFinanced s + payout <= MAX_UINT256) then
        if call_value env (msg_sender env) payout then
          Ok (financed id (msg_sender env) payout repayment due
                (block_timestamp env) s,
              [FinancingWithdrawn id (msg_sender env) payout
                 (block_timestamp env)])
        else Revert TransferFailed
      else Revert Panic
  end.
Proof.
  unfold withdrawFinancing_body, financing_checks, first_failure.
  rewrite not_financed_decide, !leb_decide, !ltb_decide.
  repeat (case_bool_decide; next; try reflexivity).
  - destruct (recoverSigner _ _ _ _ _ _ _ _ _) as [signer|]; [|done].
    assert (signer = aegisServerWallet s) as -> by congruence.
    rewrite N.eqb_refl. next.
    rewrite (proj2 (recordFinancing_Ok env id payout repayment due s _))
      by (by repeat split).
    next. by destruct (call_value _ _ _).
  - destruct (recoverSigner _ _ _ _ _ _ _ _ _) as [signer|]; [|done].
    assert (signer = aegisServerWallet s) as -> by congruence.
    rewrite N.eqb_refl. next.
    unfold recordFinancing. fields. rewrite sub_in_range by done. next.
    unfold add. rewrite (proj2 (N.leb_gt _ _)) by lia. reflexivity.
  - destruct (recoverSigner _ _ _ _ _ _ _ _ _) as [signer|]; [|done].
    destruct (N.eqb_spec signer (aegisServerWallet s)); [congruence|done].
Qed.

Lemma withdrawFinancing_idle K env id payout repayment due nonce deadline sig s :
  _status s = false ->
  withdrawFinancing K env id payout repayment due nonce deadline sig s =
  withdrawFinancing_body K env id payout repayment due nonce deadline sig s.
Proof.
  intros Hs. unfold withdrawFinancing.
  apply nonReentrant_idle; [apply withdrawFinancing_body_agnostic|done].
Qed.

Lemma transact_Revert K env c s e :
  execute K env c s = Revert e -> transact K env c s = s.
Proof. intros H. unfold transact. by rewrite H. Qed.

Lemma transact_failed K env c s :
  succeeds (execute K env c s) = false -> transact K env c s = s.
Proof.
  unfold transact. destruct (execute K env c s) as [[s' evs]|e]; [discriminate|done].
Qed.

Lemma transact_Ok K env c s s' evs :
  execute K env c s = Ok (s', evs) -> transact K env c s = s'.
Proof. intros H. unfold transact. by rewrite H. Qed.

(** The checks of [withdrawFinancing] are applied in the listed order. *)
Lemma withdrawFinancing_first_failure K env id payout repayment due nonce deadline sig s e :
  _status s = false ->
  first_failure (financing_checks K env id payout repayment due nonce deadline sig s)
    = Some e ->
  withdrawFinancing K env id payout repayment due nonce deadline sig s = Revert e.
Proof.
  intros Hs Hf. rewrite withdrawFinancing_idle by done.
  rewrite withdrawFinancing_body_closed. by rewrite Hf.
Qed.

(** C2. [withdrawFinancing] succeeds only if the invoice is unused, the
    deadline has not passed, the payout is covered by the available
    liquidity, the repayment exceeds the payout, the due date is in the
    future and the signature over (invoiceId, caller, payoutAmount,
    repaymentAmount, dueDate, nonce, deadline) recovers the current
    authorizer wallet.  The checks are applied in this order, each failing
    with its own error ([InvoiceAlreadyFinanced], [SignatureExpired],
    [InsufficientLiquidity], [InvalidTerms], [InvalidDueDate],
    [InvalidSignature]), and a rejected call leaves the state unchanged. *)
Theorem withdrawFinancing_checks_in_order
  K env id payout repayment due nonce deadline sig s :
  _status s = false ->
  let result :=
    withdrawFinancing K env id payout repayment due nonce deadline sig s in
  let call := call_withdrawFinancing id payout repayment due nonce deadline sig in
  let now := block_timestamp env in
  let signer := recoverSigner K env id payout repayment due nonce deadline sig in
  (id ∈ usedInvoices s -> result = Revert InvoiceAlreadyFinanced) /\
  (id ∉ usedInvoices s -> deadline < now -> result = Revert SignatureExpired) /\
  (id ∉ usedInvoices s -> now <= deadline -> availableLiquidity s < payout ->
   result = Revert InsufficientLiquidity) /\
  (id ∉ usedInvoices s -> now <= deadline -> payout <= availableLiquidity s ->
   repayment <= payout -> result = Revert InvalidTerms) /\
  (id ∉ usedInvoices s -> now <= deadline -> payout <= availableLiquidity s ->
   payout < repayment -> due <= now -> result = Revert InvalidDueDate) /\
  (id ∉ usedInvoices s -> now <= deadline -> payout <= availableLiquidity s ->
   payout < repayment -> now < due -> signer <> Some (aegisServerWallet s) ->
   result = Revert InvalidSignature) /\
  (succeeds result = true ->
   (id ∉ usedInvoices s) /\ now <= deadline /\ payout <= availableLiquidity s /\
   payout < repayment /\ now < due /\ signer = Some (aegisServerWallet s)) /\
  (succeeds result = false -> transact K env call s = s).
Proof.
  intros Hs result call now signer.
  assert (Hfail : forall e,
    first_failure (financing_checks K env id payout repayment due nonce deadline sig s)
      = Some e -> result = Revert e).
  { intros e. by apply withdrawFinancing_first_failure. }
  repeat split.
  - intros H. apply Hfail. simpl. rewrite bool_decide_eq_false_2; [done|]. auto.
  - intros H1 H2. apply Hfail. simpl.
    rewrite (bool_decide_eq_true_2 _ H1).
    rewrite bool_decide_eq_false_2; [done|]. fold now. lia.
  - intros H1 H2 H3. apply Hfail. simpl.
    rewrite (bool_decide_eq_true_2 _ H1), (bool_decide_eq_true_2 _ H2).
    rewrite bool_decide_eq_false_2; [done|]. lia.
  - intros H1 H2 H3 H4. apply Hfail. simpl.
    rewrite (bool_decide_eq_true_2 _ H1), (bool_decide_eq_true_2 _ H2),
      (bool_decide_eq_true_2 _ H3).
    rewrite bool_decide_eq_false_2; [done|]. lia.
  - intros H1 H2 H3 H4 H5. apply Hfail. simpl.
    rewrite (bool_decide_eq_true_2 _ H1), (bool_decide_eq_true_2 _ H2),
      (bool_decide_eq_true_2 _ H3), (bool_decide_eq_true_2 _ H4).
    rewrite bool_decide_eq_false_2; [done|]. fold now. lia.
  - intros H1 H2 H3 H4 H5 H6. apply Hfail. simpl.
    rewrite (bool_decide_eq_true_2 _ H1), (bool_decide_eq_true_2 _ H2),
      (bool_decide_eq_true_2 _ H3), (bool_decide_eq_true_2 _ H4),
      (bool_decide_eq_true_2 _ H5).
    rewrite bool_decide_eq_false_2; done.
  - destruct result as [[s' evs]|e] eqn:E; [|discriminate].
    apply withdrawFinancing_Ok in E. tauto.
  - destruct result as [[s' evs]|e] eqn:E; [|discriminate].
    apply withdrawFinancing_Ok in E. tauto.
  - destruct result as [[s' evs]|e] eqn:E; [|discriminate].
    apply withdrawFinancing_Ok in E. tauto.
  - destruct result as [[s' evs]|e] eqn:E; [|discriminate].
    apply withdrawFinancing_Ok in E. tauto.
  - destruct result as [[s' evs]|e] eqn:E; [|discriminate].
    apply withdrawFinancing_Ok in E. tauto.
  - destruct result as [[s' evs]|e] eqn:E; [|discriminate].
    apply withdrawFinancing_Ok in E. tauto.
  - intros H. by apply transact_failed.
Qed.

(** C2 witness: on the fresh demo pool, a request whose deadline (2000) has
    passed at time 3000 is rejected with [SignatureExpired]. *)
Lemma withdrawFinancing_checks_in_order_witness :
  _status demo_deployed = false /\
  withdrawFinancing demo_crypto (demo_env 5 3000) 77 98000 100000 demo_dueDate
    1 2000 [2] demo_deployed = Revert SignatureExpired.
Proof.
  split; [reflexivity|].
  destruct (withdrawFinancing_checks_in_order demo_crypto (demo_env 5 3000)
              77 98000 100000 demo_dueDate 1 2000 [2] demo_deployed eq_refl)
    as (_ & Hexpired & _).
  apply Hexpired; by_compute.
Defined.

(** C3. When every validation check of [withdrawFinancing] passes but the
    payout transfer to the caller fails, and likewise when the transfer of
    [withdraw] fails, the call reverts and the state after the call is the
    state before it: the invoice is not marked used (although the body had
    marked it before the transfer), no record is kept, and the pool totals
    and LP positions are untouched. *)
Theorem transfer_failure_rolls_back K env s :
  _status s = false ->
  (forall id payout repayment due nonce deadline sig,
     id ∉ usedInvoices s ->
     block_timestamp env <= deadline ->
     payout <= availableLiquidity s ->
     payout < repayment ->
     block_timestamp env < due ->
     recoverSigner K env id payout repayment due nonce deadline sig
       = Some (aegisServerWallet s) ->
     call_value env (msg_sender env) payout = false ->
     let call := call_withdrawFinancing id payout repayment due nonce deadline sig in
     succeeds (execute K env call s) = false /\
     transact K env call s = s /\
     (id ∉ usedInvoices (transact K env call s)) /\
     (totalFinanced s + payout <= MAX_UINT256 ->
      execute K env call s = Revert TransferFailed /\
      exists s1, recordFinancing env id payout repayment due s = Ok s1 /\
                 id ∈ usedInvoices s1)) /\
  (forall amount,
     0 < amount ->
     amount <= getLPBalance (msg_sender env) s ->
     amount <= availableLiquidity s ->
     call_value env (msg_sender env) amount = false ->
     succeeds (execute K env (call_withdraw amount) s) = false /\
     transact K env (call_withdraw amount) s = s /\
     (amount <= totalPoolSize s ->
      execute K env (call_withdraw amount) s = Revert TransferFailed)).
Proof.
  intros Hs. split.
  - intros id payout repayment due nonce deadline sig Hid Hdl Hav Hterms Hdue
      Hsig Hcall call.
    assert (Hexec : execute K env call s =
                    if bool_decide (totalFinanced s + payout <= MAX_UINT256)
                    then Revert TransferFailed else Revert Panic).
    { simpl. rewrite withdrawFinancing_idle by done.
      rewrite withdrawFinancing_body_closed. simpl.
      rewrite !bool_decide_eq_true_2 by done. by rewrite Hcall. }
    assert (Hfail : succeeds (execute K env call s) = false).
    { rewrite Hexec. by case_bool_decide. }
    pose proof (transact_failed _ _ _ _ Hfail) as Hsame.
    repeat split; try done.
    + by rewrite Hsame.
    + rewrite Hexec. by rewrite bool_decide_eq_true_2.
    + eexists. split.
      * apply recordFinancing_Ok. by repeat split.
      * fields. set_solver.
  - intros amount Hpos Hlp Hav Hcall.
    assert (Hfail : succeeds (execute K env (call_withdraw amount) s) = false).
    { simpl. destruct (withdraw env amount s) as [[s' evs]|e] eqn:E; [|done].
      apply withdraw_Ok in E. destruct E as (_ & _ & _ & _ & _ & E & _).
      congruence. }
    repeat split; try done.
    + by apply transact_failed.
    + intros Htot. simpl. unfold withdraw.
      rewrite nonReentrant_idle by (done || apply withdraw_body_agnostic).
      unfold withdraw_body.
      rewrite (proj2 (N.ltb_lt _ _) Hpos). next.
      rewrite (proj2 (N.leb_le _ _) Hlp), (proj2 (N.leb_le _ _) Hav). next.
      rewrite (sub_in_range _ _ Hlp). next. fields.
      rewrite (sub_in_range _ _ Htot). next. fields.
      rewrite (sub_in_range _ _ Hav). next. by rewrite Hcall.
Qed.

(** C3 witness: on the fresh demo pool, a valid financing request whose
    payout transfer fails leaves the pool exactly as it was. *)
Lemma transfer_failure_rolls_back_witness :
  _status demo_deployed = false /\
  transact demo_crypto (demo_env_failing 5 1000) demo_financing demo_deployed
    = demo_deployed.
Proof.
  split; [reflexivity|].
  destruct (transfer_failure_rolls_back demo_crypto (demo_env_failing 5 1000)
              demo_deployed eq_refl) as [Hfin _].
  apply (Hfin 77 98000 100000 demo_dueDate 1 2000 [2]);
    try by_compute; reflexivity.
Defined.

(** C4. Once an invoice id is in the used set, every further
    [withdrawFinancing] for it fails with [InvoiceAlreadyFinanced] and
    leaves the state as it was, whatever the nonce, terms, caller, time or
    signature: the used set is the only replay defence.  In particular a
    second request for the id of a request that just succeeded is rejected,
    valid signature and fresh nonce or not. *)
Theorem used_invoice_rejected K id s :
  _status s = false ->
  (id ∈ usedInvoices s ->
   forall env payout repayment due nonce deadline sig,
     withdrawFinancing K env id payout repayment due nonce deadline sig s
       = Revert InvoiceAlreadyFinanced /\
     transact K env
       (call_withdrawFinancing id payout repayment due nonce deadline sig) s = s) /\
  (forall env1 payout1 repayment1 due1 nonce1 deadline1 sig1 s1 evs1,
     withdrawFinancing K env1 id payout1 repayment1 due1 nonce1 deadline1 sig1 s
       = Ok (s1, evs1) ->
     forall env2 payout2 repayment2 due2 nonce2 deadline2 sig2,
       withdrawFinancing K env2 id payout2 repayment2 due2 nonce2 deadline2 sig2 s1
         = Revert InvoiceAlreadyFinanced /\
       transact K env2
         (call_withdrawFinancing id payout2 repayment2 due2 nonce2 deadline2 sig2)
         s1 = s1).
Proof.
  intros Hs.
  assert (Hused : forall s0, _status s0 = false -> id ∈ usedInvoices s0 ->
    forall env payout repayment due nonce deadline sig,
      withdrawFinancing K env id payout repayment due nonce deadline sig s0
        = Revert InvoiceAlreadyFinanced /\
      transact K env
        (call_withdrawFinancing id payout repayment due nonce deadline sig) s0 = s0).
  { intros s0 Hs0 Hid env payout repayment due nonce deadline sig.
    assert (H : withdrawFinancing K env id payout repayment due nonce deadline
                  sig s0 = Revert InvoiceAlreadyFinanced).
    { apply withdrawFinancing_first_failure; [done|]. simpl.
      rewrite bool_decide_eq_false_2; [done|]. auto. }
    split; [done|]. by eapply transact_Revert. }
  split; [by apply Hused|].
  intros env1 payout1 repayment1 due1 nonce1 deadline1 sig1 s1 evs1 H1.
  apply withdrawFinancing_Ok in H1.
  destruct H1 as (_ & _ & _ & _ & _ & _ & _ & _ & _ & -> & _).
  apply Hused; fields; [done|]. apply elem_of_union_l. by apply elem_of_singleton.
Qed.

(** C4 witness: after the demo financing of invoice 77, a request for 77
    with another nonce (2 instead of 1) is rejected. *)
Lemma used_invoice_rejected_witness :
  _status demo_financed = false /\
  77 ∈ usedInvoices demo_financed /\
  withdrawFinancing demo_crypto (demo_env 5 1500) 77 98000 100000 demo_dueDate
    2 2000 [2] demo_financed = Revert InvoiceAlreadyFinanced.
Proof.
  assert (Hs : _status demo_financed = false) by reflexivity.
  assert (Hid : 77 ∈ usedInvoices demo_financed) by by_compute.
  split; [exact Hs|]. split; [exact Hid|].
  destruct (used_invoice_rejected demo_crypto 77 demo_financed Hs) as [Hused _].
  apply (Hused Hid (demo_env 5 1500) 98000 100000 demo_dueDate 2 2000 [2]).
Defined.

(** ** Repayment *)

Lemma repaidState_record id lpInterest totalInterest s :
  getFinancingRecord id (repaidState id lpInterest totalInterest s)
  = set_repaid true (getFinancingRecord id s).
Proof.
  unfold getFinancingRecord at 1. unfold repaidState. fields.
  by rewrite lookup_insert_eq.
Qed.

Lemma repaidState_other_records id id' lpInterest totalInterest s :
  id' <> id ->
  financingRecords (repaidState id lpInterest totalInterest s) !! id'
  = financingRecords s !! id'.
Proof. intros Hne. unfold repaidState. fields. by rewrite lookup_insert_ne. Qed.

(** C5. A successful [repay] of a financed, unrepaid record (which needs
    the supplied amount to cover [repaymentAmount + lateFee]) computes
    [totalInterest = (repaymentAmount - payoutAmount) + lateFee],
    [protocolFee = floor(totalInterest * protocolFeeRate / 10000)] and
    [lpInterest = totalInterest - protocolFee], and changes the state by
    exactly: [availableLiquidity += payoutAmount + lpInterest],
    [totalPoolSize += lpInterest], [totalInterestEarned += totalInterest],
    record marked repaid.  For a record with payout 98,000 and repayment
    100,000 repaid on time at the rate of 1000 bps, the call succeeds with
    [protocolFee = 200], [lpInterest = 1800], [availableLiquidity += 99,800]
    and [totalPoolSize += 1,800]. *)
Theorem repay_distributes_interest :
  (forall env value id s s' evs,
     repay env value id s = Ok (s', evs) ->
     let record := getFinancingRecord id s in
     let lateFee :=
       lateFee_spec (repaymentAmount record) (dueDate record) (block_timestamp env) in
     let totalInterest := (repaymentAmount record - payoutAmount record) + lateFee in
     let protocolFee := totalInterest * protocolFeeRate s / 10000 in
     let lpInterest := totalInterest - protocolFee in
     (id ∈ usedInvoices s) /\
     repaid record = false /\
     repaymentAmount record + lateFee <= value /\
     payoutAmount record <= repaymentAmount record /\
     protocolFee <= totalInterest /\
     availableLiquidity s' = availableLiquidity s + payoutAmount record + lpInterest /\
     totalPoolSize s' = totalPoolSize s + lpInterest /\
     totalInterestEarned s' = totalInterestEarned s + totalInterest /\
     getFinancingRecord id s' = set_repaid true record /\
     (forall id', id' <> id -> financingRecords s' !! id' = financingRecords s !! id') /\
     totalFinanced s' = totalFinanced s /\
     usedInvoices s' = usedInvoices s /\
     lpDeposits s' = lpDeposits s /\
     aegisServerWallet s' = aegisServerWallet s /\
     protocolFeeRate s' = protocolFeeRate s /\
     protocolFeeReceiver s' = protocolFeeReceiver s /\
     _roles s' = _roles s /\
     _status s' = _status s /\
     evs = [Repayment id (msg_sender env) value totalInterest lateFee;
            InterestDistributed lpInterest protocolFee]) /\
  (forall env id s,
     _status s = false ->
     id ∈ usedInvoices s ->
     repaid (getFinancingRecord id s) = false ->
     payoutAmount (getFinancingRecord id s) = 98000 ->
     repaymentAmount (getFinancingRecord id s) = 100000 ->
     block_timestamp env <= dueDate (getFinancingRecord id s) ->
     protocolFeeRate s = 1000 ->
     availableLiquidity s + 99800 <= MAX_UINT256 ->
     totalPoolSize s + 1800 <= MAX_UINT256 ->
     totalInterestEarned s + 2000 <= MAX_UINT256 ->
     call_value env (protocolFeeReceiver s) 200 = true ->
     exists s',
       repay env 100000 id s
         = Ok (s', [Repayment id (msg_sender env) 100000 2000 0;
                    InterestDistributed 1800 200]) /\
       availableLiquidity s' = availableLiquidity s + 99800 /\
       totalPoolSize s' = totalPoolSize s + 1800 /\
       totalInterestEarned s' = totalInterestEarned s + 2000 /\
       repaid (getFinancingRecord id s') = true).
Proof.
  split.
  - intros env value id s s' evs H record lateFee totalInterest protocolFee
      lpInterest.
    apply repay_Ok in H.
    destruct H as (Hs & Hid & Hrep & Hsafe & Hreq & _ & _ & -> & ->).
    destruct Hsafe as (_ & _ & Hpay & _ & _ & Hpf & _).
    repeat split; try done.
    + fields. fold record.
      change (lpInterestFor record (block_timestamp env) (protocolFeeRate s))
        with lpInterest. lia.
    + apply repaidState_record.
    + intros id' Hne. by apply repaidState_other_records.
  - intros env id s Hs Hid Hrep Hpay Hrepay Hdue Hrate Hav Htot Hearn Hcall.
    set (record := getFinancingRecord id s) in *.
    set (now := block_timestamp env) in *.
    assert (Hfee : lateFeeFor record now = 0).
    { unfold lateFeeFor, lateFee_spec. by rewrite (proj2 (N.leb_le _ _) Hdue). }
    assert (Hreq : requiredFor record now = 100000).
    { unfold requiredFor. rewrite Hfee, Hrepay. reflexivity. }
    assert (Hti : totalInterestFor record now = 2000).
    { unfold totalInterestFor. rewrite Hfee, Hrepay, Hpay. reflexivity. }
    assert (Hpf : protocolFeeFor record now (protocolFeeRate s) = 200).
    { unfold protocolFeeFor, protocolFee_spec. rewrite Hti, Hrate. reflexivity. }
    assert (Hlp : lpInterestFor record now (protocolFeeRate s) = 1800).
    { unfold lpInterestFor. rewrite Hti, Hpf. reflexivity. }
    exists (repaidState id 1800 2000 s). split; [|split; [|split; [|split]]].
    + apply repay_Ok. fold record now. rewrite Hreq, Hti, Hpf, Hlp, Hfee.
      assert (Hmax : 2000000 <= MAX_UINT256) by by_compute.
      repeat split; try done;
        rewrite ?Hpf, ?Hlp, ?Hti, ?Hrate, ?Hpay;
        try lia; try (intros ?; lia).
    + fields. fold record. rewrite Hpay. lia.
    + fields. reflexivity.
    + fields. reflexivity.
    + rewrite repaidState_record. reflexivity.
Qed.

(** C5 witness: invoice 77 of the demo pool (payout 98,000, repayment
    100,000) repaid with exactly 100,000 before its due date. *)
Lemma repay_distributes_interest_witness :
  _status demo_financed = false /\
  exists s',
    repay (demo_env 5 2000) 100000 77 demo_financed
      = Ok (s', [Repayment 77 5 100000 2000 0; InterestDistributed 1800 200]) /\
    availableLiquidity s' = availableLiquidity demo_financed + 99800 /\
    totalPoolSize s' = totalPoolSize demo_financed + 1800 /\
    totalInterestEarned s' = totalInterestEarned demo_financed + 2000 /\
    repaid (getFinancingRecord 77 s') = true.
Proof.
  split; [reflexivity|].
  apply (proj2 repay_distributes_interest (demo_env 5 2000) 77 demo_financed);
    try reflexivity; by_compute.
Defined.

Lemma lateFee_spec_on_time repayment due now :
  now <= due -> lateFee_spec repayment due now = 0.
Proof. intros H. unfold lateFee_spec. by rewrite (proj2 (N.leb_le _ _) H). Qed.

Lemma lateFee_spec_late repayment due now :
  due < now ->
  lateFee_spec repayment due now
  = N.min (repayment * ((now - due) / 86400) / 100) (repayment * 30 / 100).
Proof.
  intros H. unfold lateFee_spec.
  by rewrite (proj2 (N.leb_gt _ _) H), N.mul_1_r.
Qed.

(** What [repay] answers when the supplied amount is short. *)
Lemma repay_short env value id s :
  let record := getFinancingRecord id s in
  let now := block_timestamp env in
  _status s = false ->
  id ∈ usedInvoices s ->
  repaid record = false ->
  lateFee_safe record now ->
  requiredFor record now <= MAX_UINT256 ->
  value < requiredFor record now ->
  repay env value id s = Revert InsufficientRepayment.
Proof.
  intros record now Hs Hid Hrep Hsafe Hmax Hshort. unfold repay.
  rewrite nonReentrant_idle by (done || apply repay_body_agnostic).
  unfold repay_body. fold record now.
  apply isInvoiceFinanced_true in Hid. rewrite Hid, Hrep. next.
  rewrite (proj2 (lateFeeOf_Ok record now _) (conj Hsafe eq_refl)). next.
  fold (lateFeeFor record now).
  destruct (N.ltb_spec (dueDate record) now) as [Hlate|Hontime].
  - rewrite (add_in_range _ _ Hmax). next.
    fold (requiredFor record now).
    by rewrite (proj2 (N.leb_gt _ _) Hshort).
  - next.
    assert (Hreq : requiredFor record now = repaymentAmount record).
    { unfold requiredFor, lateFeeFor. rewrite lateFee_spec_on_time by done. lia. }
    rewrite Hreq in Hshort. by rewrite (proj2 (N.leb_gt _ _) Hshort).
Qed.

(** C6. The late fee of a repayment is 0 when [now <= dueDate], and
    otherwise [min(repaymentAmount * floor((now - dueDate) / 86400) * 1%,
    repaymentAmount * 30%)] in integer arithmetic; it is added to the
    amount the payer must supply.  The code's late-fee block computes this
    value whenever its products fit in a [uint256], and every successful
    [repay] charged and reported it.  A repayment of 100,000 (payout
    98,000) made exactly 10 days late has late fee 10,000, required payment
    110,000, total interest 12,000, protocol fee 1,200 at 1000 bps and LP
    interest 10,800. *)
Theorem late_fee_rule :
  (forall record now,
     lateFee_safe record now ->
     lateFeeOf record now
       = Ok (lateFee_spec (repaymentAmount record) (dueDate record) now)) /\
  (forall record now fee,
     lateFeeOf record now = Ok fee ->
     (now <= dueDate record -> fee = 0) /\
     (dueDate record < now ->
      fee = N.min (repaymentAmount record * ((now - dueDate record) / 86400) / 100)
                  (repaymentAmount record * 30 / 100))) /\
  (forall env value id s s' evs,
     repay env value id s = Ok (s', evs) ->
     let record := getFinancingRecord id s in
     let fee :=
       lateFee_spec (repaymentAmount record) (dueDate record) (block_timestamp env) in
     lateFeeOf record (block_timestamp env) = Ok fee /\
     repaymentAmount record + fee <= value /\
     exists interest lpShare protocolShare,
       evs = [Repayment id (msg_sender env) value interest fee;
              InterestDistributed lpShare protocolShare]) /\
  (forall env value id s,
     let record := getFinancingRecord id s in
     let fee :=
       lateFee_spec (repaymentAmount record) (dueDate record) (block_timestamp env) in
     _status s = false ->
     id ∈ usedInvoices s ->
     repaid record = false ->
     lateFee_safe record (block_timestamp env) ->
     repaymentAmount record + fee <= MAX_UINT256 ->
     value < repaymentAmount record + fee ->
     repay env value id s = Revert InsufficientRepayment) /\
  (forall record now,
     payoutAmount record = 98000 ->
     repaymentAmount record = 100000 ->
     now = dueDate record + 10 * 86400 ->
     lateFeeOf record now = Ok 10000 /\
     requiredFor record now = 110000 /\
     totalInterestFor record now = 12000 /\
     protocolFeeFor record now 1000 = 1200 /\
     lpInterestFor record now 1000 = 10800).
Proof.
  split; [|split; [|split; [|split]]].
  - intros record now Hsafe. by apply lateFeeOf_Ok.
  - intros record now fee H. apply lateFeeOf_Ok in H. destruct H as [_ ->].
    split; intros Hcmp.
    + by apply lateFee_spec_on_time.
    + by apply lateFee_spec_late.
  - intros env value id s s' evs H record fee. apply repay_Ok in H.
    destruct H as (_ & _ & _ & Hsafe & Hreq & _ & _ & _ & ->).
    destruct Hsafe as (Hlf & _). split; [|split].
    + by apply lateFeeOf_Ok.
    + exact Hreq.
    + by eexists _, _, _.
  - intros env value id s record fee Hs Hid Hrep Hsafe Hmax Hshort.
    by apply repay_short.
  - intros record now Hpay Hrepay Hnow.
    assert (Hdays : (now - dueDate record) / 86400 = 10).
    { rewrite Hnow. replace (dueDate record + 10 * 86400 - dueDate record)
        with (10 * 86400) by lia. reflexivity. }
    assert (Hfee : lateFeeFor record now = 10000).
    { unfold lateFeeFor. rewrite lateFee_spec_late by lia.
      rewrite Hdays, Hrepay. reflexivity. }
    assert (Hti : totalInterestFor record now = 12000).
    { unfold totalInterestFor. rewrite Hfee, Hrepay, Hpay. reflexivity. }
    assert (Hpf : protocolFeeFor record now 1000 = 1200).
    { unfold protocolFeeFor. rewrite Hti. reflexivity. }
    split; [|split; [|split; [|split]]]; try done.
    + apply lateFeeOf_Ok. split; [|by symmetry].
      intros _. rewrite Hdays, Hrepay. split; by_compute.
    + unfold requiredFor. rewrite Hfee, Hrepay. reflexivity.
    + unfold lpInterestFor. rewrite Hti, Hpf. reflexivity.
Qed.

(** C6 witness: invoice 77 of the demo pool repaid 10 days late: 110,000
    settles it, with late fee 10,000 reported; 109,999 is refused. *)
Lemma late_fee_rule_witness :
  repay (demo_env 5 (demo_dueDate + 10 * 86400)) 110000 77 demo_financed
    = Ok (transact demo_crypto (demo_env 5 (demo_dueDate + 10 * 86400))
            (call_repay 110000 77) demo_financed,
          [Repayment 77 5 110000 12000 10000; InterestDistributed 10800 1200]) /\
  repay (demo_env 5 (demo_dueDate + 10 * 86400)) 109999 77 demo_financed
    = Revert InsufficientRepayment.
Proof.
  split; [vm_compute; reflexivity|].
  destruct late_fee_rule as (_ & _ & _ & Hshort & _).
  apply (Hshort (demo_env 5 (demo_dueDate + 10 * 86400)) 109999 77 demo_financed);
    try reflexivity; by_compute.
Defined.

(** ** Financing records *)

(** What a successful call does to the used set and the record table: it
    leaves both alone, or it is a financing that adds a fresh id with its
    record, or it is a repayment that sets the [repaid] flag of a record. *)
Lemma execute_records K env c s s' evs :
  execute K env c s = Ok (s', evs) ->
  (usedInvoices s' = usedInvoices s /\ financingRecords s' = financingRecords s) \/
  (exists id payout repayment due nonce deadline sig,
     c = call_withdrawFinancing id payout repayment due nonce deadline sig /\
     (id ∉ usedInvoices s) /\
     usedInvoices s' = {[id]} ∪ usedInvoices s /\
     financingRecords s' =
       <[id := mkFinancingRecord id (msg_sender env) payout repayment due
                 (block_timestamp env) false]> (financingRecords s)) \/
  (exists value id,
     c = call_repay value id /\
     id ∈ usedInvoices s /\
     repaid (getFinancingRecord id s) = false /\
     usedInvoices s' = usedInvoices s /\
     financingRecords s' =
       <[id := set_repaid true (getFinancingRecord id s)]> (financingRecords s)).
Proof.
  destruct c; simpl; intros H.
  - apply deposit_Ok in H. destruct H as (_ & _ & _ & _ & _ & -> & _). by left.
  - apply _processDeposit_Ok in H. destruct H as (_ & _ & _ & _ & -> & _). by left.
  - apply withdraw_Ok in H. destruct H as (_ & _ & _ & _ & _ & _ & -> & _). by left.
  - apply withdrawFinancing_Ok in H.
    destruct H as (_ & Hid & _ & _ & _ & _ & _ & _ & _ & -> & _).
    right. left. by eexists _, _, _, _, _, _, _.
  - apply repay_Ok in H. destruct H as (_ & Hid & Hrep & _ & _ & _ & _ & -> & _).
    right. right. by eexists _, _.
  - apply updateAegisWallet_Ok in H. destruct H as (_ & _ & _ & H).
    pose proof (rotated_ledger env newWallet s) as (_ & _ & Hu & Hf & _).
    rewrite <- H in *. by left.
  - apply updateProtocolFeeRate_Ok in H. destruct H as (_ & _ & -> & _). by left.
  - apply updateProtocolFeeReceiver_Ok in H. destruct H as (_ & _ & -> & _). by left.
  - apply grantRole_Ok in H. destruct H as [_ H].
    pose proof (_grantRole_ledger env role account s) as L.
    rewrite <- H in L. destruct L as (_ & _ & _ & _ & _ & _ & _ & ? & _ & ? & _).
    by left.
  - apply revokeRole_Ok in H. destruct H as [_ H].
    pose proof (_revokeRole_ledger env role account s) as L.
    rewrite <- H in L. destruct L as (_ & _ & _ & _ & _ & _ & _ & ? & _ & ? & _).
    by left.
  - apply renounceRole_Ok in H. destruct H as [_ H].
    pose proof (_revokeRole_ledger env role callerConfirmation s) as L.
    rewrite <- H in L. destruct L as (_ & _ & _ & _ & _ & _ & _ & ? & _ & ? & _).
    by left.
Qed.

Lemma same_terms_refl r : same_terms r r.
Proof. repeat split. Qed.

Lemma same_terms_trans r1 r2 r3 :
  same_terms r1 r2 -> same_terms r2 r3 -> same_terms r1 r3.
Proof. unfold same_terms. intuition congruence. Qed.

Lemma same_terms_set_repaid b r : same_terms r (set_repaid b r).
Proof. repeat split. Qed.

(** One transaction, seen from a used invoice: it stays used, its record
    keeps its terms, and a repaid record stays repaid. *)
Lemma transact_used K env c id s :
  id ∈ usedInvoices s ->
  id ∈ usedInvoices (transact K env c s) /\
  creates_record K id env c s = false /\
  same_terms (getFinancingRecord id s) (getFinancingRecord id (transact K env c s)) /\
  (repaid (getFinancingRecord id s) = true ->
   repaid (getFinancingRecord id (transact K env c s)) = true).
Proof.
  intros Hid. unfold transact.
  destruct (execute K env c s) as [[s' evs]|e] eqn:E.
  - destruct (execute_records _ _ _ _ _ _ E)
      as [[Hu Hf] | [(id' & p & r & d & n & dl & sg & -> & Hfresh & Hu & Hf)
                    | (v & id' & -> & Hused & Hrep & Hu & Hf)]].
    + unfold getFinancingRecord. rewrite Hu, Hf. repeat split; try done.
      destruct c; try done. simpl in *. rewrite E. simpl.
      apply withdrawFinancing_Ok in E.
      destruct E as (_ & Hfresh & _).
      rewrite andb_true_r. apply bool_decide_eq_false. congruence.
    + assert (id' <> id) by congruence.
      unfold getFinancingRecord. rewrite Hu, Hf, lookup_insert_ne by done.
      repeat split; try done; [by apply elem_of_union_r|].
      simpl. by rewrite bool_decide_eq_false_2.
    + unfold getFinancingRecord at 2 4. rewrite Hu, Hf.
      split; [done|]. split; [done|].
      destruct (decide (id' = id)) as [->|Hne].
      * rewrite lookup_insert_eq. simpl. split; [|done].
        apply same_terms_set_repaid.
      * rewrite lookup_insert_ne by done. by split.
  - repeat split; try done.
    destruct c; try done. simpl in *. rewrite E. simpl. by rewrite andb_false_r.
Qed.

(** A call that creates the record of [id] finds [id] unused and leaves it
    used, with an unrepaid record carrying the terms of the call. *)
Lemma creates_record_fresh K env c id s :
  creates_record K id env c s = true ->
  (id ∉ usedInvoices s) /\
  id ∈ usedInvoices (transact K env c s) /\
  exists payout repayment due nonce deadline sig,
    c = call_withdrawFinancing id payout repayment due nonce deadline sig /\
    getFinancingRecord id (transact K env c s)
      = mkFinancingRecord id (msg_sender env) payout repayment due
          (block_timestamp env) false.
Proof.
  destruct c; try discriminate. simpl. intros H.
  apply andb_true_iff in H. destruct H as [Heq Hok].
  apply bool_decide_eq_true in Heq. subst id0.
  unfold transact. simpl.
  destruct (withdrawFinancing _ _ _ _ _ _ _ _ _ _) as [[s' evs]|e] eqn:E;
    [|discriminate].
  apply withdrawFinancing_Ok in E.
  destruct E as (_ & Hid & _ & _ & _ & _ & _ & _ & _ & -> & _).
  split; [done|]. split; [fields; set_solver|].
  eexists _, _, _, _, _, _. split; [done|].
  unfold getFinancingRecord. fields. by rewrite lookup_insert_eq.
Qed.

Lemma run_used K calls id s :
  id ∈ usedInvoices s ->
  id ∈ usedInvoices (run K calls s) /\
  creations K id calls s = 0%nat /\
  same_terms (getFinancingRecord id s) (getFinancingRecord id (run K calls s)) /\
  (repaid (getFinancingRecord id s) = true ->
   repaid (getFinancingRecord id (run K calls s)) = true).
Proof.
  revert s. induction calls as [|[env c] calls IH]; intros s Hid; simpl.
  - split; [done|]. split; [done|]. split; [apply same_terms_refl|done].
  - destruct (transact_used K env c id s Hid) as (Hu & Hc & Ht & Hr).
    destruct (IH _ Hu) as (Hu' & Hc' & Ht' & Hr').
    rewrite Hc, Hc'. split; [done|]. split; [done|]. split.
    + by eapply same_terms_trans.
    + auto.
Qed.

Lemma creations_at_most_once K id calls s : (creations K id calls s <= 1)%nat.
Proof.
  revert s. induction calls as [|[env c] calls IH]; intros s; simpl; [lia|].
  destruct (creates_record K id env c s) eqn:Hc.
  - apply creates_record_fresh in Hc. destruct Hc as (_ & Hu & _).
    destruct (run_used K calls id _ Hu) as (_ & -> & _). lia.
  - specialize (IH (transact K env c s)). lia.
Qed.

Lemma transact_keeps_records K env c id s :
  is_Some (financingRecords s !! id) ->
  is_Some (financingRecords (transact K env c s) !! id).
Proof.
  intros Hsome. unfold transact.
  destruct (execute K env c s) as [[s' evs]|e] eqn:E; [|done].
  destruct (execute_records _ _ _ _ _ _ E)
    as [[Hu Hf] | [(id' & p & r & d & n & dl & sg & -> & Hfresh & Hu & Hf)
                  | (v & id' & -> & Hused & Hrep & Hu & Hf)]];
    rewrite Hf; [done| |].
  - destruct (decide (id' = id)) as [->|Hne].
    + rewrite lookup_insert_eq. by eexists.
    + by rewrite lookup_insert_ne.
  - destruct (decide (id' = id)) as [->|Hne].
    + rewrite lookup_insert_eq. by eexists.
    + by rewrite lookup_insert_ne.
Qed.

Lemma run_keeps_records K calls id s :
  is_Some (financingRecords s !! id) ->
  is_Some (financingRecords (run K calls s) !! id).
Proof.
  revert s. induction calls as [|[env c] calls IH]; intros s H; simpl; [done|].
  by apply IH, transact_keeps_records.
Qed.

(** A record changes only when it is created or when it is repaid. *)
Lemma transact_changes_record K env c id s :
  getFinancingRecord id (transact K env c s) <> getFinancingRecord id s ->
  creates_record K id env c s = true \/
  exists value,
    c = call_repay value id /\
    repaid (getFinancingRecord id s) = false /\
    getFinancingRecord id (transact K env c s)
      = set_repaid true (getFinancingRecord id s).
Proof.
  unfold transact.
  destruct (execute K env c s) as [[s' evs]|e] eqn:E; [|done].
  destruct (execute_records _ _ _ _ _ _ E)
    as [[Hu Hf] | [(id' & p & r & d & n & dl & sg & -> & Hfresh & Hu & Hf)
                  | (v & id' & -> & Hused & Hrep & Hu & Hf)]];
    unfold getFinancingRecord at 1; rewrite Hf.
  - by unfold getFinancingRecord.
  - destruct (decide (id' = id)) as [->|Hne].
    + intros _. left. simpl in *. rewrite E. simpl.
      by rewrite bool_decide_eq_true_2.
    + rewrite lookup_insert_ne by done. by unfold getFinancingRecord.
  - destruct (decide (id' = id)) as [->|Hne].
    + rewrite lookup_insert_eq. simpl. intros _. right. exists v.
      repeat split; try done.
      unfold getFinancingRecord at 1. by rewrite Hf, lookup_insert_eq.
    + rewrite lookup_insert_ne by done. by unfold getFinancingRecord.
Qed.

(** In a reachable state the used invoices are the ones with a record. *)
Lemma Reachable_records K s id :
  Reachable K s -> id ∈ usedInvoices s <-> is_Some (financingRecords s !! id).
Proof.
  induction 1 as [env value wallet s evs Hc | env c s _ IH].
  - apply constructor_Ok in Hc.
    destruct Hc as (_ & _ & _ & _ & _ & _ & _ & _ & Hu & Hf & _).
    rewrite Hu, Hf, lookup_empty. split; [set_solver|]. by intros [? ?].
  - unfold transact.
    destruct (execute K env c s) as [[s' evs]|e] eqn:E; [|done].
    destruct (execute_records _ _ _ _ _ _ E)
      as [[Hu Hf] | [(id' & p & r & d & n & dl & sg & -> & Hfresh & Hu & Hf)
                    | (v & id' & -> & Hused & Hrep & Hu & Hf)]];
      rewrite Hu, Hf; [done| |].
    + rewrite elem_of_union, elem_of_singleton.
      destruct (decide (id' = id)) as [->|Hne].
      * rewrite lookup_insert_eq. split; [by eexists|by left].
      * rewrite lookup_insert_ne by done. rewrite <- IH.
        split; [intros [Heq|Hin]; [congruence|done] | by right].
    + destruct (decide (id' = id)) as [->|Hne].
      * rewrite lookup_insert_eq. split; [by eexists|done].
      * by rewrite lookup_insert_ne.
Qed.

(** C7. For every invoice id at most one financing record is ever created,
    and only by a successful [withdrawFinancing] on an id that is not yet
    used.  Once created, a record keeps every field but [repaid]; [repaid]
    goes from false to true only, by [repay], and never back; and a record
    is never deleted. *)
Theorem record_lifecycle K :
  (forall id calls s, (creations K id calls s <= 1)%nat) /\
  (forall id env c s,
     creates_record K id env c s = true ->
     (id ∉ usedInvoices s) /\
     id ∈ usedInvoices (transact K env c s) /\
     exists payout repayment due nonce deadline sig,
       c = call_withdrawFinancing id payout repayment due nonce deadline sig /\
       getFinancingRecord id (transact K env c s)
         = mkFinancingRecord id (msg_sender env) payout repayment due
             (block_timestamp env) false) /\
  (forall id calls s,
     id ∈ usedInvoices s ->
     id ∈ usedInvoices (run K calls s) /\
     creations K id calls s = 0%nat /\
     same_terms (getFinancingRecord id s) (getFinancingRecord id (run K calls s)) /\
     (repaid (getFinancingRecord id s) = true ->
      repaid (getFinancingRecord id (run K calls s)) = true)) /\
  (forall id calls s,
     is_Some (financingRecords s !! id) ->
     is_Some (financingRecords (run K calls s) !! id)) /\
  (forall id env c s,
     getFinancingRecord id (transact K env c s) <> getFinancingRecord id s ->
     creates_record K id env c s = true \/
     exists value,
       c = call_repay value id /\
       repaid (getFinancingRecord id s) = false /\
       getFinancingRecord id (transact K env c s)
         = set_repaid true (getFinancingRecord id s)) /\
  (forall id s,
     Reachable K s ->
     id ∈ usedInvoices s <-> is_Some (financingRecords s !! id)).
Proof.
  split; [|split; [|split; [|split; [|split]]]].
  - intros id calls s. apply creations_at_most_once.
  - intros id env c s. apply creates_record_fresh.
  - intros id calls s. apply run_used.
  - intros id calls s. apply run_keeps_records.
  - intros id env c s. apply transact_changes_record.
  - intros id s. apply Reachable_records.
Qed.

(** C7 witness: invoice 77 of the demo pool, through a second financing
    attempt and its repayment: still used, never re-created, same terms. *)
Lemma record_lifecycle_witness :
  77 ∈ usedInvoices demo_financed /\
  let calls :=
    [(demo_env 5 1500, call_withdrawFinancing 77 50000 60000 demo_dueDate 2 2000 [2]);
     (demo_env 5 2000, call_repay 100000 77)] in
  77 ∈ usedInvoices (run demo_crypto calls demo_financed) /\
  creations demo_crypto 77 calls demo_financed = 0%nat /\
  same_terms (getFinancingRecord 77 demo_financed)
    (getFinancingRecord 77 (run demo_crypto calls demo_financed)) /\
  (repaid (getFinancingRecord 77 demo_financed) = true ->
   repaid (getFinancingRecord 77 (run demo_crypto calls demo_financed)) = true).
Proof.
  assert (Hid : 77 ∈ usedInvoices demo_financed) by by_compute.
  split; [exact Hid|].
  destruct (record_lifecycle demo_crypto) as (_ & _ & Hused & _).
  apply (Hused 77 _ demo_financed Hid).
Defined.

(** ** Deposits *)

Lemma getLPBalance_credit account amount s :
  getLPBalance account (credit account amount s) = getLPBalance account s + amount.
Proof. unfold getLPBalance at 1. unfold credit. fields. by rewrite lookup_insert_eq. Qed.

Lemma getLPBalance_credit_other account other amount s :
  other <> account ->
  getLPBalance other (credit account amount s) = getLPBalance other s.
Proof.
  intros Hne. unfold getLPBalance, credit. fields. by rewrite lookup_insert_ne.
Qed.

Lemma getLPBalance_debit account amount s :
  getLPBalance account (debit account amount s) = getLPBalance account s - amount.
Proof. unfold getLPBalance at 1. unfold debit. fields. by rewrite lookup_insert_eq. Qed.

Lemma getLPBalance_debit_other account other amount s :
  other <> account ->
  getLPBalance other (debit account amount s) = getLPBalance other s.
Proof.
  intros Hne. unfold getLPBalance, debit. fields. by rewrite lookup_insert_ne.
Qed.

(** C8. From any state, for any account and any amount [X] (necessarily
    positive), once [deposit] of [X] has been performed, a withdrawal of
    [X] by the same account right after it, with a successful outgoing
    transfer, succeeds and restores [totalPoolSize], [availableLiquidity]
    and the account's LP position to their values before the deposit;
    nothing else in the ledger changes either. *)
Theorem deposit_withdraw_round_trip K env1 env2 value s s1 evs1 :
  execute K env1 (call_deposit value) s = Ok (s1, evs1) ->
  msg_sender env2 = msg_sender env1 ->
  call_value env2 (msg_sender env2) value = true ->
  0 < value /\
  exists s2 evs2,
    execute K env2 (call_withdraw value) s1 = Ok (s2, evs2) /\
    totalPoolSize s2 = totalPoolSize s /\
    availableLiquidity s2 = availableLiquidity s /\
    (forall account, getLPBalance account s2 = getLPBalance account s) /\
    totalFinanced s2 = totalFinanced s /\
    totalInterestEarned s2 = totalInterestEarned s /\
    usedInvoices s2 = usedInvoices s /\
    financingRecords s2 = financingRecords s /\
    _roles s2 = _roles s /\
    _status s2 = _status s.
Proof.
  simpl. intros H1 Hsender Hcall.
  apply deposit_Ok in H1. destruct H1 as (Hs & Hpos & Hlp & Htot & Hav & -> & _).
  split; [done|].
  eexists (debit (msg_sender env2) value (credit (msg_sender env1) value s)), _.
  split.
  - apply withdraw_Ok. rewrite Hsender, getLPBalance_credit. fields.
    repeat split; try done; try lia. by rewrite <- Hsender.
  - rewrite Hsender. fields. repeat split; try done; try lia.
    intros account. destruct (decide (account = msg_sender env1)) as [->|Hne].
    + rewrite getLPBalance_debit, getLPBalance_credit. lia.
    + by rewrite getLPBalance_debit_other, getLPBalance_credit_other.
Qed.

(** A deposit goes through whenever the guard is idle, the amount is
    positive and the three counters can hold it. *)
Lemma deposit_succeeds K env value s :
  _status s = false ->
  0 < value ->
  getLPBalance (msg_sender env) s + value <= MAX_UINT256 ->
  totalPoolSize s + value <= MAX_UINT256 ->
  availableLiquidity s + value <= MAX_UINT256 ->
  execute K env (call_deposit value) s
    = Ok (credit (msg_sender env) value s,
          [Deposit (msg_sender env) value (totalPoolSize s + value)]).
Proof. intros. simpl. by apply deposit_Ok. Qed.

(** C8 witness: account 9 deposits 500 into the demo pool after a
    financing, then withdraws 500. *)
Lemma deposit_withdraw_round_trip_witness :
  exists s2 evs2,
    execute demo_crypto (demo_env 9 1600) (call_withdraw 500)
      (credit 9 500 demo_financed) = Ok (s2, evs2) /\
    totalPoolSize s2 = totalPoolSize demo_financed /\
    availableLiquidity s2 = availableLiquidity demo_financed /\
    getLPBalance 9 s2 = getLPBalance 9 demo_financed.
Proof.
  destruct (deposit_withdraw_round_trip demo_crypto (demo_env 9 1500)
              (demo_env 9 1600) 500 demo_financed (credit 9 500 demo_financed)
              [Deposit 9 500 (totalPoolSize demo_financed + 500)])
    as (_ & s2 & evs2 & H2 & Ht & Ha & Hl & _).
  - apply deposit_succeeds; try reflexivity; by_compute.
  - reflexivity.
  - reflexivity.
  - exists s2, evs2. split; [exact H2|]. split; [exact Ht|]. split; [exact Ha|].
    apply Hl.
Defined.

(** C10. Besides the listed operations the ledger accepts a plain value
    transfer (the [receive] fallback).  For every sender and amount it
    does what a deposit does: it requires a positive amount and adds the
    amount to the sender's LP position, to [totalPoolSize] and to
    [availableLiquidity], with the same [Deposit] event.  As a call it
    returns exactly what [deposit] returns for the same sender and amount,
    in every state a transaction can start from (guard idle), hence in
    every reachable state. *)
Theorem receive_is_deposit K env value s :
  (value = 0 -> receive env value s = Revert AmountZero) /\
  (0 < value ->
   getLPBalance (msg_sender env) s + value <= MAX_UINT256 ->
   totalPoolSize s + value <= MAX_UINT256 ->
   availableLiquidity s + value <= MAX_UINT256 ->
   receive env value s
     = Ok (credit (msg_sender env) value s,
           [Deposit (msg_sender env) value (totalPoolSize s + value)])) /\
  (forall s' evs,
     receive env value s = Ok (s', evs) ->
     0 < value /\
     getLPBalance (msg_sender env) s' = getLPBalance (msg_sender env) s + value /\
     totalPoolSize s' = totalPoolSize s + value /\
     availableLiquidity s' = availableLiquidity s + value /\
     evs = [Deposit (msg_sender env) value (totalPoolSize s')]) /\
  (_status s = false ->
   receive env value s = deposit env value s /\
   execute K env (call_receive value) s = execute K env (call_deposit value) s) /\
  (Reachable K s ->
   execute K env (call_receive value) s = execute K env (call_deposit value) s).
Proof.
  assert (Heq : _status s = false -> receive env value s = deposit env value s).
  { intros Hs. unfold deposit, receive. symmetry.
    apply nonReentrant_idle; [apply _processDeposit_agnostic|done]. }
  split; [|split; [|split; [|split]]].
  - intros ->. reflexivity.
  - intros Hpos Hlp Htot Hav. unfold receive. by apply _processDeposit_Ok.
  - intros s' evs H. unfold receive in H. apply _processDeposit_Ok in H.
    destruct H as (Hpos & _ & _ & _ & -> & ->).
    split; [done|]. split; [apply getLPBalance_credit|]. by fields.
  - intros Hs. split; by apply Heq.
  - intros HR. simpl. by apply Heq, (Reachable_idle K).
Qed.

(** C10 witness: a plain transfer of 500 from account 9 to the demo pool. *)
Lemma receive_is_deposit_witness :
  Reachable demo_crypto demo_deployed /\
  execute demo_crypto (demo_env 9 1500) (call_receive 500) demo_deployed
    = execute demo_crypto (demo_env 9 1500) (call_deposit 500) demo_deployed /\
  getLPBalance 9 (transact demo_crypto (demo_env 9 1500) (call_receive 500)
                    demo_deployed) = 500.
Proof.
  split; [apply demo_deployed_reachable|].
  split; [|vm_compute; reflexivity].
  destruct (receive_is_deposit demo_crypto (demo_env 9 1500) 500 demo_deployed)
    as (_ & _ & _ & _ & Hreach).
  apply Hreach, demo_deployed_reachable.
Defined.

(** Inside a guarded call the two entry points differ: [deposit] is
    blocked by the guard, [receive] is not. *)
Lemma deposit_blocked_receive_open env value s :
  _status s = true ->
  deposit env value s = Revert ReentrancyBlocked /\
  receive env value s = _processDeposit (msg_sender env) value s.
Proof. intros Hs. split; [by apply nonReentrant_entered|done]. Qed.

(** ** Rotation of the authorizer wallet *)

(** A caller without [ADMIN_ROLE] is turned away before anything happens. *)
Lemma updateAegisWallet_not_admin K env newWallet s :
  hasRole ADMIN_ROLE (msg_sender env) s = false ->
  updateAegisWallet env newWallet s
    = Revert (Unauthorized (msg_sender env) ADMIN_ROLE) /\
  transact K env (call_updateAegisWallet newWallet) s = s.
Proof.
  intros Hr.
  assert (H : updateAegisWallet env newWallet s
              = Revert (Unauthorized (msg_sender env) ADMIN_ROLE)).
  { unfold updateAegisWallet. by rewrite onlyRole_denied. }
  split; [done|]. by eapply transact_Revert.
Qed.

(** [ADMIN_ROLE] alone does not carry the rotation through: the public
    [revokeRole] it calls checks the admin role of [AEGIS_ROLE], which is
    [DEFAULT_ADMIN_ROLE]. *)
Lemma updateAegisWallet_needs_default_admin K env newWallet s :
  hasRole ADMIN_ROLE (msg_sender env) s = true ->
  newWallet <> 0 ->
  hasRole DEFAULT_ADMIN_ROLE (msg_sender env) s = false ->
  updateAegisWallet env newWallet s
    = Revert (Unauthorized (msg_sender env) DEFAULT_ADMIN_ROLE) /\
  transact K env (call_updateAegisWallet newWallet) s = s.
Proof.
  intros Hadmin Hne Hdefault.
  assert (H : updateAegisWallet env newWallet s
              = Revert (Unauthorized (msg_sender env) DEFAULT_ADMIN_ROLE)).
  { unfold updateAegisWallet.
    rewrite (proj2 (onlyRole_Ok _ _ _ tt) Hadmin). next.
    rewrite (proj2 (N.eqb_neq _ _) Hne). next.
    unfold revokeRole, getRoleAdmin. by rewrite onlyRole_denied. }
  split; [done|]. by eapply transact_Revert.
Qed.

(** With both roles the rotation succeeds: the wallet is replaced, the new
    wallet holds [AEGIS_ROLE] and the old one (if different) no longer. *)
Lemma updateAegisWallet_rotates env newWallet s :
  hasRole ADMIN_ROLE (msg_sender env) s = true ->
  hasRole DEFAULT_ADMIN_ROLE (msg_sender env) s = true ->
  newWallet <> 0 ->
  exists s' evs,
    updateAegisWallet env newWallet s = Ok (s', evs) /\
    aegisServerWallet s' = newWallet /\
    hasRole AEGIS_ROLE newWallet s' = true /\
    (aegisServerWallet s <> newWallet ->
     hasRole AEGIS_ROLE (aegisServerWallet s) s' = false) /\
    last evs = Some (AegisWalletUpdated (aegisServerWallet s) newWallet).
Proof.
  intros Hadmin Hdefault Hne.
  exists (rotated env newWallet s).1, (rotated env newWallet s).2.
  split; [apply updateAegisWallet_Ok; by destruct (rotated env newWallet s)|].
  unfold rotated.
  pose proof (_revokeRole_ledger env AEGIS_ROLE (aegisServerWallet s)
                (set_aegisServerWallet newWallet s)) as L1.
  pose proof (_revokeRole_roles env AEGIS_ROLE (aegisServerWallet s)
                (set_aegisServerWallet newWallet s)) as R1.
  destruct (_revokeRole _ _ _ _) as [s2 evs2].
  pose proof (_grantRole_ledger env AEGIS_ROLE newWallet s2) as L2.
  pose proof (_grantRole_roles env AEGIS_ROLE newWallet s2) as R2.
  destruct (_grantRole _ _ _ s2) as [s3 evs3].
  destruct L1 as (Hw1 & _). destruct L2 as (Hw2 & _). simpl in *.
  split; [congruence|]. split; [|split].
  - unfold hasRole. apply bool_decide_eq_true. rewrite R2.
    apply elem_of_union_l. by apply elem_of_singleton.
  - intros Hold. unfold hasRole. apply bool_decide_eq_false.
    rewrite R2, R1, elem_of_union, elem_of_difference, !elem_of_singleton.
    intros [Heq|[_ Hnot]]; [congruence|done].
  - by rewrite !app_assoc, last_snoc.
Qed.

(** C9. [updateAegisWallet] is gated by [ADMIN_ROLE], but an account that
    holds [ADMIN_ROLE] without [DEFAULT_ADMIN_ROLE] cannot rotate the
    wallet.  In the reachable state where the deployer has granted
    [ADMIN_ROLE] to account 3, account 3 calling with the non-zero wallet 4
    is rejected as unauthorized for [DEFAULT_ADMIN_ROLE], while the sibling
    admin function [updateProtocolFeeRate] accepts the same caller. *)
Theorem updateAegisWallet_rejects_delegated_admin :
  Reachable demo_crypto demo_delegated /\
  hasRole ADMIN_ROLE 3 demo_delegated = true /\
  hasRole DEFAULT_ADMIN_ROLE 3 demo_delegated = false /\
  updateAegisWallet (demo_env 3 1000) 4 demo_delegated
    = Revert (Unauthorized 3 DEFAULT_ADMIN_ROLE) /\
  updateProtocolFeeRate (demo_env 3 1000) 500 demo_delegated
    = Ok (set_protocolFeeRate 500 demo_delegated, []).
Proof.
  split; [apply Reachable_transact, demo_deployed_reachable|].
  split; [vm_compute; reflexivity|].
  split; [vm_compute; reflexivity|].
  split; vm_compute; reflexivity.
Qed.

(** * Further properties of the contract *)

(** ** Sums over tables *)

Lemma map_sum_empty {A} (f : A -> N) : map_sum f ∅ = 0.
Proof. unfold map_sum. apply map_fold_empty. Qed.

Lemma map_sum_insert_fresh {A} (f : A -> N) (m : gmap N A) i x :
  m !! i = None -> map_sum f (<[i:=x]> m) = f x + map_sum f m.
Proof.
  intros Hi. unfold map_sum.
  rewrite map_fold_insert_L; [done| |done].
  intros. lia.
Qed.

Lemma map_sum_insert_over {A} (f : A -> N) (m : gmap N A) i x0 x :
  m !! i = Some x0 -> map_sum f (<[i:=x]> m) + f x0 = f x + map_sum f m.
Proof.
  intros Hi. unfold map_sum at 2.
  rewrite (map_fold_delete_L _ _ i x0 m); [| intros; lia | done].
  fold (map_sum f (delete i m)).
  rewrite <- (insert_delete_eq m i x).
  rewrite map_sum_insert_fresh by apply lookup_delete_eq. lia.
Qed.

(** Writing [v] at [i]: the sum trades the old entry (0 if none) for [v]. *)
Lemma map_sum_write {A} (f : A -> N) (m : gmap N A) i x :
  map_sum f (<[i:=x]> m) + default 0 (f <$> m !! i) = f x + map_sum f m.
Proof.
  destruct (m !! i) as [x0|] eqn:Hi; simpl.
  - by apply map_sum_insert_over.
  - rewrite map_sum_insert_fresh by done. lia.
Qed.

Lemma totalDeposits_credit account amount s :
  totalDeposits (credit account amount s) = totalDeposits s + amount.
Proof.
  unfold totalDeposits, credit. fields.
  pose proof (map_sum_write (fun v : N => v) (lpDeposits s) account
                (getLPBalance account s + amount)) as H.
  unfold getLPBalance in *. destruct (lpDeposits s !! account); simpl in *; lia.
Qed.

Lemma totalDeposits_debit account amount s :
  amount <= getLPBalance account s ->
  totalDeposits (debit account amount s) + amount = totalDeposits s.
Proof.
  intros Hle. unfold totalDeposits, debit. fields.
  pose proof (map_sum_write (fun v : N => v) (lpDeposits s) account
                (getLPBalance account s - amount)) as H.
  unfold getLPBalance in *. destruct (lpDeposits s !! account); simpl in *; lia.
Qed.

(** ** The shape of a successful call *)

(** Every successful call is a credit, a debit, a financing, a repayment or
    a configuration write. *)
Lemma execute_shape K env c s s' evs :
  execute K env c s = Ok (s', evs) ->
  (exists amount, 0 < amount /\ s' = credit (msg_sender env) amount s) \/
  (exists amount,
     amount <= getLPBalance (msg_sender env) s /\
     amount <= availableLiquidity s /\ amount <= totalPoolSize s /\
     s' = debit (msg_sender env) amount s) \/
  (exists id payout repayment due,
     (id ∉ usedInvoices s) /\ payout <= availableLiquidity s /\
     s' = financed id (msg_sender env) payout repayment due (block_timestamp env) s) \/
  (exists id,
     id ∈ usedInvoices s /\ repaid (getFinancingRecord id s) = false /\
     repay_safe (getFinancingRecord id s) (block_timestamp env) s /\
     s' = repaidState id
            (lpInterestFor (getFinancingRecord id s) (block_timestamp env)
               (protocolFeeRate s))
            (totalInterestFor (getFinancingRecord id s) (block_timestamp env)) s) \/
  config_step s s'.
Proof.
  destruct c; simpl; intros H.
  - apply deposit_Ok in H. destruct H as (_ & ? & _ & _ & _ & -> & _).
    left. by eexists.
  - apply _processDeposit_Ok in H. destruct H as (? & _ & _ & _ & -> & _).
    left. by eexists.
  - apply withdraw_Ok in H. destruct H as (_ & _ & ? & ? & ? & _ & -> & _).
    right. left. by eexists.
  - apply withdrawFinancing_Ok in H.
    destruct H as (_ & ? & _ & ? & _ & _ & _ & _ & _ & -> & _).
    right. right. left. by eexists _, _, _, _.
  - apply repay_Ok in H. destruct H as (_ & ? & ? & ? & _ & _ & _ & -> & _).
    right. right. right. left. by eexists.
  - apply updateAegisWallet_Ok in H. destruct H as (_ & Hne & _ & H).
    right. right. right. right.
    assert (Hw : aegisServerWallet s' = newWallet).
    { replace s' with (rotated env newWallet s).1 by (by rewrite <- H).
      unfold rotated.
      pose proof (_revokeRole_ledger env AEGIS_ROLE (aegisServerWallet s)
                    (set_aegisServerWallet newWallet s)) as L1.
      destruct (_revokeRole _ _ _ _) as [s2 evs2].
      pose proof (_grantRole_ledger env AEGIS_ROLE newWallet s2) as L2.
      destruct (_grantRole _ _ _ s2) as [s3 evs3].
      destruct L1 as (Hw1 & _). destruct L2 as (Hw2 & _). simpl in *. congruence. }
    assert (Hr : protocolFeeRate s' = protocolFeeRate s /\
                 totalFinanced s' = totalFinanced s /\
                 totalInterestEarned s' = totalInterestEarned s).
    { replace s' with (rotated env newWallet s).1 by (by rewrite <- H).
      unfold rotated.
      pose proof (_revokeRole_ledger env AEGIS_ROLE (aegisServerWallet s)
                    (set_aegisServerWallet newWallet s)) as L1.
      destruct (_revokeRole _ _ _ _) as [s2 evs2].
      pose proof (_grantRole_ledger env AEGIS_ROLE newWallet s2) as L2.
      destruct (_grantRole _ _ _ s2) as [s3 evs3].
      destruct L1 as (_ & _ & _ & ? & ? & ? & _).
      destruct L2 as (_ & _ & _ & ? & ? & ? & _). simpl in *.
      repeat split; congruence. }
    pose proof (rotated_ledger env newWallet s) as (Ht & Ha & Hu & Hf & Hl & Hst).
    rewrite <- H in *. simpl in *. destruct Hr as (Hr1 & Hr2 & Hr3).
    unfold config_step. repeat split; try done.
    + right. congruence.
    + by left.
  - apply updateProtocolFeeRate_Ok in H. destruct H as (_ & ? & -> & _).
    right. right. right. right. unfold config_step. fields.
    repeat split; try done; [by left|by right].
  - apply updateProtocolFeeReceiver_Ok in H. destruct H as (_ & _ & -> & _).
    right. right. right. right. unfold config_step. fields.
    repeat split; try done; by left.
  - apply grantRole_Ok in H. destruct H as [_ H].
    pose proof (_grantRole_ledger env role account s) as L.
    rewrite <- H in L. simpl in L. unfold same_ledger in L.
    right. right. right. right. unfold config_step.
    destruct L as (? & ? & ? & ? & ? & ? & ? & ? & ? & ? & ?).
    repeat split; try done; by left.
  - apply revokeRole_Ok in H. destruct H as [_ H].
    pose proof (_revokeRole_ledger env role account s) as L.
    rewrite <- H in L. simpl in L. unfold same_ledger in L.
    right. right. right. right. unfold config_step.
    destruct L as (? & ? & ? & ? & ? & ? & ? & ? & ? & ? & ?).
    repeat split; try done; by left.
  - apply renounceRole_Ok in H. destruct H as [_ H].
    pose proof (_revokeRole_ledger env role callerConfirmation s) as L.
    rewrite <- H in L. simpl in L. unfold same_ledger in L.
    right. right. right. right. unfold config_step.
    destruct L as (? & ? & ? & ? & ? & ? & ? & ? & ? & ? & ?).
    repeat split; try done; by left.
Qed.

(** Induction over reachable states, one successful call at a time. *)
Lemma Reachable_invariant K (P : State -> Prop) :
  (forall env value wallet s evs,
     constructor env value wallet = Ok (s, evs) -> P s) ->
  (forall env c s s' evs,
     Reachable K s -> P s -> execute K env c s = Ok (s', evs) -> P s') ->
  forall s, Reachable K s -> P s.
Proof.
  intros Hinit Hstep s HR.
  induction HR as [env value wallet s evs Hc | env c s HR IH].
  - by eapply Hinit.
  - unfold transact. destruct (execute K env c s) as [[s' evs]|e] eqn:E; [|done].
    by eapply Hstep.
Qed.

(** ** The fee rate *)

Lemma protocolFee_within totalInterest rate :
  rate <= 5000 -> protocolFee_spec totalInterest rate <= totalInterest.
Proof.
  intros Hr. unfold protocolFee_spec.
  apply N.Div0.div_le_upper_bound. nia.
Qed.

Lemma Reachable_rate K s : Reachable K s -> protocolFeeRate s <= 5000.
Proof.
  revert s. apply Reachable_invariant.
  - intros env value wallet s evs Hc. apply constructor_Ok in Hc.
    destruct Hc as (_ & _ & _ & _ & _ & _ & -> & _). lia.
  - intros env c s s' evs _ IH E.
    destruct (execute_shape _ _ _ _ _ _ E)
      as [(a & _ & ->) | [(a & _ & _ & _ & ->) | [(i & p & r & d & _ & _ & ->)
         | [(i & _ & _ & _ & ->) | Hcfg]]]]; try exact IH.
    destruct Hcfg as (_ & _ & _ & _ & _ & _ & _ & _ & _ & [->|?]); done.
Qed.


(** ** Invariants of the configuration *)



(** X2. In every reachable state the authorizer wallet is a non-zero
    address: deployment and rotation both refuse the zero address. *)
Theorem authorizer_never_zero K s :
  Reachable K s -> aegisServerWallet s <> 0.
Proof.
  revert s. apply Reachable_invariant.
  - intros env value wallet s evs Hc. apply constructor_Ok in Hc.
    destruct Hc as (Hne & -> & _). done.
  - intros env c s s' evs _ IH H.
    destruct (execute_shape _ _ _ _ _ _ H)
      as [(a & _ & ->) | [(a & _ & _ & _ & ->) | [(i & p & r & d & _ & _ & ->)
         | [(i & _ & _ & _ & ->) | Hcfg]]]]; fields; try done.
    destruct Hcfg as (_ & _ & _ & _ & _ & _ & _ & _ & [->|Hne] & _); done.
Qed.

(** X2 witness: the demo pool after one financing. *)
Lemma authorizer_never_zero_witness :
  Reachable demo_crypto demo_financed /\ aegisServerWallet demo_financed <> 0.
Proof.
  split; [apply demo_financed_reachable|].
  apply (authorizer_never_zero demo_crypto demo_financed demo_financed_reachable).
Defined.

(** ** Accounting invariants *)

Lemma financedPrincipal_financed id who payout repayment due now s :
  financingRecords s !! id = None ->
  financedPrincipal (financed id who payout repayment due now s)
  = payout + financedPrincipal s.
Proof.
  intros Hnone. unfold financedPrincipal, financed. fields.
  by rewrite map_sum_insert_fresh.
Qed.

Lemma financedPrincipal_repaidState id lpInterest totalInterest s :
  financedPrincipal (repaidState id lpInterest totalInterest s)
  = financedPrincipal s.
Proof.
  unfold financedPrincipal, repaidState. fields.
  pose proof (map_sum_write payoutAmount (financingRecords s) id
                (set_repaid true (getFinancingRecord id s))) as H.
  unfold getFinancingRecord in *.
  destruct (financingRecords s !! id); simpl in *; lia.
Qed.

(** X3. In every reachable state [totalFinanced] is the sum of the payouts
    of all financing records ever created, repaid or not, and the
    principal still out on loan never exceeds it. *)
Theorem totalFinanced_is_sum_of_payouts K s :
  Reachable K s ->
  totalFinanced s = financedPrincipal s /\
  outstanding (financingRecords s) <= totalFinanced s.
Proof.
  intros HR.
  assert (Hsum : totalFinanced s = financedPrincipal s).
  { revert s HR. apply Reachable_invariant.
    - intros env value wallet s evs Hc. apply constructor_Ok in Hc.
      destruct Hc as (_ & _ & _ & _ & -> & _ & _ & _ & _ & Hf & _).
      unfold financedPrincipal. rewrite Hf. by rewrite map_sum_empty.
    - intros env c s s' evs HR IH H.
      destruct (execute_shape _ _ _ _ _ _ H)
        as [(a & _ & ->) | [(a & _ & _ & _ & ->) | [(i & p & r & d & Hi & _ & ->)
           | [(i & _ & _ & _ & ->) | Hcfg]]]].
      + done.
      + done.
      + rewrite financedPrincipal_financed.
        * fields. lia.
        * by apply (inv_records _ (Reachable_Inv K s HR)).
      + rewrite financedPrincipal_repaidState. by fields.
      + destruct Hcfg as (_ & _ & Hf & _ & _ & _ & Hr & _).
        unfold financedPrincipal. by rewrite Hf, Hr. }
  split; [done|]. rewrite Hsum. unfold financedPrincipal, map_sum, outstanding.
  generalize (financingRecords s). intros m.
  induction m as [|i r m Hi Hfirst IH] using map_first_key_ind.
  - by rewrite !map_fold_empty.
  - rewrite !map_fold_insert_first_key by done.
    unfold owed at 1. destruct (repaid r); lia.
Qed.

(** X3 witness: the demo pool after one financing of 98,000. *)
Lemma totalFinanced_is_sum_of_payouts_witness :
  Reachable demo_crypto demo_financed /\
  totalFinanced demo_financed = financedPrincipal demo_financed.
Proof.
  split; [apply demo_financed_reachable|].
  apply (totalFinanced_is_sum_of_payouts demo_crypto demo_financed
           demo_financed_reachable).
Defined.

(** X4. In every reachable state [getPoolStatus] returns without
    reverting, and the utilized amount it reports is the principal of the
    unrepaid financings: [available + utilized = total]. *)
Theorem getPoolStatus_reports_outstanding K s :
  Reachable K s ->
  getPoolStatus s
    = Ok (totalPoolSize s, availableLiquidity s,
          outstanding (financingRecords s), totalFinanced s) /\
  availableLiquidity s + outstanding (financingRecords s) = totalPoolSize s.
Proof.
  intros HR. destruct (Reachable_Inv K s HR) as [Hb _].
  split; [|done]. unfold getPoolStatus.
  rewrite sub_in_range by lia. simpl. do 3 f_equal. lia.
Qed.

(** X4 witness: the demo pool after one financing of 98,000 is utilized
    for 98,000. *)
Lemma getPoolStatus_reports_outstanding_witness :
  Reachable demo_crypto demo_financed /\
  getPoolStatus demo_financed = Ok (1000000, 902000, 98000, 98000).
Proof.
  split; [apply demo_financed_reachable|].
  destruct (getPoolStatus_reports_outstanding demo_crypto demo_financed
              demo_financed_reachable) as [H _].
  rewrite H. vm_compute. reflexivity.
Defined.

Lemma Reachable_run K calls s : Reachable K s -> Reachable K (run K calls s).
Proof.
  revert s. induction calls as [|[env c] calls IH]; intros s HR; simpl; [done|].
  by apply IH, Reachable_transact.
Qed.

Lemma Reachable_deposits K s : Reachable K s -> totalDeposits s <= totalPoolSize s.
Proof.
  revert s. apply Reachable_invariant.
  - intros env value wallet s evs Hc. unfold constructor in Hc.
    apply bind_Ok in Hc. destruct Hc as (? & _ & Hc).
    set (s0 := mkState wallet 0 0 0 0 1000 (msg_sender env) ∅ ∅ ∅ ∅ false) in *.
    pose proof (_grantRole_ledger env DEFAULT_ADMIN_ROLE (msg_sender env) s0) as L1.
    destruct (_grantRole env DEFAULT_ADMIN_ROLE (msg_sender env) s0) as [s1 evs1].
    pose proof (_grantRole_ledger env ADMIN_ROLE (msg_sender env) s1) as L2.
    destruct (_grantRole env ADMIN_ROLE (msg_sender env) s1) as [s2 evs2].
    pose proof (_grantRole_ledger env AEGIS_ROLE wallet s2) as L3.
    destruct (_grantRole env AEGIS_ROLE wallet s2) as [s3 evs3].
    pose proof (same_ledger_trans _ _ _ (same_ledger_trans _ _ _ L1 L2) L3) as L.
    destruct L as (_ & Lt & _ & _ & _ & _ & _ & _ & Ll & _). subst s0. simpl in *.
    destruct (0 <? value); apply Ok_inj in Hc; apply pair_equal_spec in Hc;
      destruct Hc as [<- _]; unfold totalDeposits; fields; rewrite Ll.
    + rewrite map_sum_insert_fresh by apply lookup_empty.
      rewrite map_sum_empty. lia.
    + rewrite map_sum_empty. lia.
  - intros env c s s' evs _ IH H.
    destruct (execute_shape _ _ _ _ _ _ H)
      as [(a & _ & ->) | [(a & Hlp & _ & Htot & ->) | [(i & p & r & d & _ & _ & ->)
         | [(i & _ & _ & _ & ->) | Hcfg]]]].
    + rewrite totalDeposits_credit. fields. lia.
    + pose proof (totalDeposits_debit _ _ s Hlp). fields. lia.
    + done.
    + unfold totalDeposits in *. fields. lia.
    + destruct Hcfg as (Ht & _ & _ & _ & _ & Hl & _).
      unfold totalDeposits. by rewrite Ht, Hl.
Qed.

Lemma transact_unattributed K env c s :
  Reachable K s -> unattributed s <= unattributed (transact K env c s).
Proof.
  intros HR. pose proof (Reachable_deposits K s HR) as Hle.
  unfold transact. destruct (execute K env c s) as [[s' evs]|e] eqn:E; [|done].
  unfold unattributed.
  destruct (execute_shape _ _ _ _ _ _ E)
    as [(a & _ & ->) | [(a & Hlp & _ & Htot & ->) | [(i & p & r & d & _ & _ & ->)
       | [(i & _ & _ & _ & ->) | Hcfg]]]].
  - rewrite totalDeposits_credit. fields. lia.
  - pose proof (totalDeposits_debit _ _ s Hlp). fields. lia.
  - done.
  - unfold totalDeposits in *. fields. lia.
  - destruct Hcfg as (Ht & _ & _ & _ & _ & Hl & _).
    unfold totalDeposits. by rewrite Ht, Hl.
Qed.

(** X5. In every reachable state the LP positions add up to at most
    [totalPoolSize], and the part of the pool size that belongs to no LP
    position (the interest credited by repayments) never shrinks along any
    run: no call pays it out or attributes it to a position. *)
Theorem pool_interest_stays_unattributed K s :
  Reachable K s ->
  totalDeposits s <= totalPoolSize s /\
  forall calls,
    totalDeposits (run K calls s) <= totalPoolSize (run K calls s) /\
    unattributed s <= unattributed (run K calls s).
Proof.
  intros HR. split; [by apply (Reachable_deposits K)|].
  intros calls. split; [by apply (Reachable_deposits K), Reachable_run|].
  revert s HR. induction calls as [|[env c] calls IH]; intros s HR; simpl; [done|].
  transitivity (unattributed (transact K env c s)).
  - by apply transact_unattributed.
  - by apply IH, Reachable_transact.
Qed.

(** X5 witness: after invoice 77 of the demo pool is repaid, 1,800 of the
    pool size belong to no LP position, and a later withdrawal of the
    deployer's whole position leaves them in place. *)
Lemma pool_interest_stays_unattributed_witness :
  Reachable demo_crypto demo_financed /\
  let calls := [(demo_env 5 2000, call_repay 100000 77);
                (demo_env 1 3000, call_withdraw 1000000)] in
  unattributed (run demo_crypto calls demo_financed) = 1800 /\
  unattributed demo_financed <= unattributed (run demo_crypto calls demo_financed).
Proof.
  split; [apply demo_financed_reachable|].
  split; [vm_compute; reflexivity|].
  apply (pool_interest_stays_unattributed demo_crypto demo_financed
           demo_financed_reachable).
Defined.

(** ** Repayment happens once *)

Lemma repay_not_financed env value id s :
  _status s = false -> id ∉ usedInvoices s ->
  repay env value id s = Revert InvoiceNotFinanced.
Proof.
  intros Hs Hid. unfold repay.
  rewrite nonReentrant_idle by (done || apply repay_body_agnostic).
  unfold repay_body. apply isInvoiceFinanced_false in Hid. by rewrite Hid.
Qed.

Lemma repay_already_repaid env value id s :
  _status s = false -> id ∈ usedInvoices s ->
  repaid (getFinancingRecord id s) = true ->
  repay env value id s = Revert AlreadyRepaid.
Proof.
  intros Hs Hid Hrep. unfold repay.
  rewrite nonReentrant_idle by (done || apply repay_body_agnostic).
  unfold repay_body. apply isInvoiceFinanced_true in Hid. by rewrite Hid, Hrep.
Qed.

Lemma settles_effect K id env c s :
  settles K id env c s = true ->
  id ∈ usedInvoices s /\
  repaid (getFinancingRecord id s) = false /\
  id ∈ usedInvoices (transact K env c s) /\
  repaid (getFinancingRecord id (transact K env c s)) = true.
Proof.
  destruct c; try discriminate. simpl. intros H.
  apply andb_true_iff in H. destruct H as [Heq Hok].
  apply bool_decide_eq_true in Heq. subst id0.
  unfold transact. simpl.
  destruct (repay env value id s) as [[s' evs]|e] eqn:E; [|discriminate].
  apply repay_Ok in E. destruct E as (_ & Hid & Hrep & _ & _ & _ & _ & -> & _).
  split; [done|]. split; [done|]. split; [by fields|].
  by rewrite repaidState_record.
Qed.

Lemma settled_stays K id calls s :
  id ∈ usedInvoices s -> repaid (getFinancingRecord id s) = true ->
  settlements K id calls s = 0%nat.
Proof.
  revert s. induction calls as [|[env c] calls IH]; intros s Hid Hrep; simpl; [done|].
  destruct (transact_used K env c id s Hid) as (Hu & _ & _ & Hr).
  rewrite IH by auto.
  destruct (settles K id env c s) eqn:Hs; [|done].
  apply settles_effect in Hs. destruct Hs as (_ & Hfalse & _). congruence.
Qed.

(** X6. An invoice is repaid at most once: along any run at most one
    [repay] of a given invoice id succeeds.  A successful [repay] finds the
    invoice financed and unrepaid and leaves it repaid; [repay] of an
    invoice that was never financed fails with [InvoiceNotFinanced], and
    [repay] of a repaid one fails with [AlreadyRepaid]. *)
Theorem repay_settles_once K :
  (forall id calls s, (settlements K id calls s <= 1)%nat) /\
  (forall id env c s,
     settles K id env c s = true ->
     id ∈ usedInvoices s /\
     repaid (getFinancingRecord id s) = false /\
     id ∈ usedInvoices (transact K env c s) /\
     repaid (getFinancingRecord id (transact K env c s)) = true) /\
  (forall env value id s,
     _status s = false -> id ∉ usedInvoices s ->
     repay env value id s = Revert InvoiceNotFinanced) /\
  (forall env value id s,
     _status s = false -> id ∈ usedInvoices s ->
     repaid (getFinancingRecord id s) = true ->
     repay env value id s = Revert AlreadyRepaid).
Proof.
  split; [|split; [|split]].
  - intros id calls. induction calls as [|[env c] calls IH]; intros s; simpl; [lia|].
    destruct (settles K id env c s) eqn:Hs.
    + apply settles_effect in Hs. destruct Hs as (_ & _ & Hu & Hr).
      rewrite (settled_stays K id calls _ Hu Hr). lia.
    + specialize (IH (transact K env c s)). lia.
  - intros id env c s. apply settles_effect.
  - intros env value id s. apply repay_not_financed.
  - intros env value id s. apply repay_already_repaid.
Qed.

(** X6 witness: invoice 77 of the demo pool repaid, then repaid again:
    one settlement, and the second call answers [AlreadyRepaid]. *)
Lemma repay_settles_once_witness :
  let s1 := transact demo_crypto (demo_env 5 2000) (call_repay 100000 77)
              demo_financed in
  settlements demo_crypto 77
    [(demo_env 5 2000, call_repay 100000 77);
     (demo_env 5 2500, call_repay 100000 77)] demo_financed = 1%nat /\
  repay (demo_env 5 2500) 100000 77 s1 = Revert AlreadyRepaid.
Proof.
  split; [vm_compute; reflexivity|].
  destruct (repay_settles_once demo_crypto) as (_ & _ & _ & Hagain).
  apply Hagain; first [reflexivity | by_compute].
Defined.

(** ** LP positions *)

(** X7. The LP position of an account changes only through a deposit, a
    plain transfer or a withdrawal made by that account itself: financing,
    repayment, the admin functions and other accounts' calls never touch
    it. *)
Theorem lp_position_moved_only_by_owner K env c account s :
  getLPBalance account (transact K env c s) <> getLPBalance account s ->
  moves_position account env c = true.
Proof.
  unfold transact.
  destruct (execute K env c s) as [[s' evs]|e] eqn:E; [|done].
  destruct c; simpl in *; intros Hne.
  - apply deposit_Ok in E. destruct E as (_ & _ & _ & _ & _ & -> & _).
    apply bool_decide_eq_true. destruct (decide (msg_sender env = account)); [done|].
    by rewrite getLPBalance_credit_other in Hne.
  - apply _processDeposit_Ok in E. destruct E as (_ & _ & _ & _ & -> & _).
    apply bool_decide_eq_true. destruct (decide (msg_sender env = account)); [done|].
    by rewrite getLPBalance_credit_other in Hne.
  - apply withdraw_Ok in E. destruct E as (_ & _ & _ & _ & _ & _ & -> & _).
    apply bool_decide_eq_true. destruct (decide (msg_sender env = account)); [done|].
    by rewrite getLPBalance_debit_other in Hne.
  - apply withdrawFinancing_Ok in E.
    by destruct E as (_ & _ & _ & _ & _ & _ & _ & _ & _ & -> & _).
  - apply repay_Ok in E. by destruct E as (_ & _ & _ & _ & _ & _ & _ & -> & _).
  - apply updateAegisWallet_Ok in E. destruct E as (_ & _ & _ & E).
    pose proof (rotated_ledger env newWallet s) as (_ & _ & _ & _ & Hl & _).
    rewrite <- E in Hl. simpl in Hl. unfold getLPBalance in Hne. by rewrite Hl in Hne.
  - apply updateProtocolFeeRate_Ok in E. by destruct E as (_ & _ & -> & _).
  - apply updateProtocolFeeReceiver_Ok in E. by destruct E as (_ & _ & -> & _).
  - apply grantRole_Ok in E. destruct E as [_ E].
    pose proof (_grantRole_ledger env role account0 s) as L.
    rewrite <- E in L. destruct L as (_ & _ & _ & _ & _ & _ & _ & _ & Hl & _).
    simpl in Hl. unfold getLPBalance in Hne. by rewrite Hl in Hne.
  - apply revokeRole_Ok in E. destruct E as [_ E].
    pose proof (_revokeRole_ledger env role account0 s) as L.
    rewrite <- E in L. destruct L as (_ & _ & _ & _ & _ & _ & _ & _ & Hl & _).
    simpl in Hl. unfold getLPBalance in Hne. by rewrite Hl in Hne.
  - apply renounceRole_Ok in E. destruct E as [_ E].
    pose proof (_revokeRole_ledger env role callerConfirmation s) as L.
    rewrite <- E in L. destruct L as (_ & _ & _ & _ & _ & _ & _ & _ & Hl & _).
    simpl in Hl. unfold getLPBalance in Hne. by rewrite Hl in Hne.
Qed.

(** X7 witness: the deployer's position in the demo pool moves when the
    deployer withdraws 500. *)
Lemma lp_position_moved_only_by_owner_witness :
  getLPBalance 1 (transact demo_crypto (demo_env 1 1500) (call_withdraw 500)
                    demo_deployed) <> getLPBalance 1 demo_deployed /\
  moves_position 1 (demo_env 1 1500) (call_withdraw 500) = true.
Proof.
  assert (H : getLPBalance 1 (transact demo_crypto (demo_env 1 1500)
                                (call_withdraw 500) demo_deployed)
              <> getLPBalance 1 demo_deployed) by by_compute.
  split; [exact H|].
  exact (lp_position_moved_only_by_owner demo_crypto (demo_env 1 1500)
           (call_withdraw 500) 1 demo_deployed H).
Defined.

(** ** Bounds of the late fee *)

(** X8. Whatever the late-fee block of [repay] computes is at most 30% of
    the repayment amount; it is 0 until a full day has passed after the
    due date, it is the full 30% from 30 days late on, and it never
    decreases as time passes. *)
Theorem late_fee_bounds record now fee :
  lateFeeOf record now = Ok fee ->
  fee <= repaymentAmount record * 30 / 100 /\
  (now < dueDate record + 86400 -> fee = 0) /\
  (dueDate record + 30 * 86400 <= now -> fee = repaymentAmount record * 30 / 100) /\
  (forall later fee',
     now <= later -> lateFeeOf record later = Ok fee' -> fee <= fee').
Proof.
  intros H. apply lateFeeOf_Ok in H. destruct H as [_ ->].
  set (rep := repaymentAmount record). set (due := dueDate record).
  assert (Hspec : forall t,
    lateFee_spec rep due t
    = if t <=? due then 0
      else N.min (rep * ((t - due) / 86400) / 100) (rep * 30 / 100)).
  { intros t. unfold lateFee_spec. by rewrite N.mul_1_r. }
  assert (Hmono : forall t t', t <= t' ->
    lateFee_spec rep due t <= lateFee_spec rep due t').
  { intros t t' Hle. rewrite !Hspec.
    destruct (N.leb_spec t due), (N.leb_spec t' due); try lia.
    { apply N.le_0_l. }
    apply N.min_le_compat_r. apply N.Div0.div_le_mono.
    apply N.mul_le_mono_l. apply N.Div0.div_le_mono. lia. }
  split; [|split; [|split]].
  - rewrite Hspec. destruct (N.leb_spec now due); [apply N.le_0_l|apply N.le_min_r].
  - intros Hsoon. rewrite Hspec. destruct (N.leb_spec now due); [done|].
    rewrite (N.div_small (now - due) 86400) by lia.
    rewrite N.mul_0_r. apply N.min_l. apply N.le_0_l.
  - intros Hlate. rewrite Hspec. destruct (N.leb_spec now due); [lia|].
    apply N.min_r. apply N.Div0.div_le_mono. apply N.mul_le_mono_l.
    replace 30 with (30 * 86400 / 86400) at 1 by reflexivity.
    apply N.Div0.div_le_mono. lia.
  - intros later fee' Hle H'. apply lateFeeOf_Ok in H'. destruct H' as [_ ->].
    by apply Hmono.
Qed.

(** X8 witness: the record of invoice 77, 45 days late: the fee is the
    30% cap, 30,000. *)
Lemma late_fee_bounds_witness :
  lateFeeOf (getFinancingRecord 77 demo_financed) (demo_dueDate + 45 * 86400)
    = Ok 30000 /\
  30000 <= repaymentAmount (getFinancingRecord 77 demo_financed) * 30 / 100.
Proof.
  assert (H : lateFeeOf (getFinancingRecord 77 demo_financed)
                (demo_dueDate + 45 * 86400) = Ok 30000)
    by (vm_compute; reflexivity).
  split; [exact H|].
  exact (proj1 (late_fee_bounds _ _ _ H)).
Defined.

(** ** Repayment: the money that moves *)

(** Past its checks and arithmetic, [repay] is two transfers and a commit. *)
Lemma repay_body_tail env value id s :
  let record := getFinancingRecord id s in
  let now := block_timestamp env in
  let fee := protocolFeeFor record now (protocolFeeRate s) in
  let required := requiredFor record now in
  id ∈ usedInvoices s ->
  repaid record = false ->
  repay_safe record now s ->
  required <= value ->
  repay_body env value id s =
  ((if 0 <? fee
   then require (call_value env (protocolFeeReceiver s) fee)
          ProtocolFeeTransferFailed
   else Ok tt);;
  (if required <? value
   then require (call_value env (msg_sender env) (value - required)) RefundFailed
   else Ok tt);;
  Ok (repaidState id (lpInterestFor record now (protocolFeeRate s))
        (totalInterestFor record now) s,
      [Repayment id (msg_sender env) value (totalInterestFor record now)
         (lateFeeFor record now);
       InterestDistributed (lpInterestFor record now (protocolFeeRate s)) fee])).
Proof.
  intros record now fee required Hid Hrep Hsafe Hreq. subst fee required.
  destruct Hsafe as (Hlf & Hreqmax & Hpay & Hti & Hmul & Hpf & Hav & Htot & Hearn).
  unfold repay_body. fold record now.
  apply isInvoiceFinanced_true in Hid. rewrite Hid, Hrep. next.
  rewrite (proj2 (lateFeeOf_Ok record now _) (conj Hlf eq_refl)). next.
  fold (lateFeeFor record now).
  assert (Hstep : (if dueDate record <? now
                   then add (repaymentAmount record) (lateFeeFor record now)
                   else Ok (repaymentAmount record))
                  = Ok (requiredFor record now)).
  { unfold requiredFor in *.
    destruct (N.ltb_spec (dueDate record) now) as [Hlate|Hontime].
    - apply add_in_range. auto.
    - f_equal. unfold lateFeeFor. rewrite lateFee_spec_on_time by done. lia. }
  rewrite Hstep. next.
  rewrite (proj2 (N.leb_le _ _) Hreq). next.
  rewrite (sub_in_range _ _ Hpay). next.
  rewrite (add_in_range _ _ Hti). next.
  fold (totalInterestFor record now).
  rewrite (mul_in_range _ _ Hmul). next.
  fold (protocolFee_spec (totalInterestFor record now) (protocolFeeRate s)).
  fold (protocolFeeFor record now (protocolFeeRate s)).
  rewrite (sub_in_range _ _ Hpf). next.
  fold (lpInterestFor record now (protocolFeeRate s)).
  rewrite (add_in_range (payoutAmount record) _) by lia. next. fields.
  rewrite (add_in_range _ _ Hav). next.
  rewrite (add_in_range _ _ Htot). next.
  rewrite (add_in_range _ _ Hearn). next.
  destruct (0 <? protocolFeeFor record now (protocolFeeRate s));
    [destruct (call_value env (protocolFeeReceiver s)
                 (protocolFeeFor record now (protocolFeeRate s)))|];
    next; try reflexivity;
    (destruct (N.ltb_spec (requiredFor record now) value);
     [rewrite sub_in_range by lia; next|]; reflexivity).
Qed.

(** X9. A successful [repay] accounts for every unit supplied: the amount
    sent equals the protocol fee paid to the fee receiver, plus the excess
    refunded to the payer, plus the increase of [availableLiquidity]; and
    each of the two outgoing transfers was made and reported success. *)
Theorem repay_conserves_value env value id s s' evs :
  repay env value id s = Ok (s', evs) ->
  let record := getFinancingRecord id s in
  let now := block_timestamp env in
  let fee := protocolFeeFor record now (protocolFeeRate s) in
  let refund := value - requiredFor record now in
  availableLiquidity s <= availableLiquidity s' /\
  value = fee + refund + (availableLiquidity s' - availableLiquidity s) /\
  (0 < fee -> call_value env (protocolFeeReceiver s) fee = true) /\
  (0 < refund -> call_value env (msg_sender env) refund = true).
Proof.
  intros H record now fee refund. apply repay_Ok in H.
  destruct H as (_ & _ & _ & Hsafe & Hreq & Hfee & Hexc & -> & _).
  destruct Hsafe as (_ & _ & Hpay & _ & _ & Hpf & _).
  fold record now in Hpay, Hpf, Hreq, Hfee, Hexc. fold fee in Hpf, Hfee.
  fields. fold record now.
  unfold lpInterestFor. fold fee.
  unfold requiredFor, totalInterestFor in *.
  subst refund. unfold requiredFor.
  split; [lia|]. split; [lia|]. split; [done|].
  intros Hpos. apply Hexc. lia.
Qed.

(** X9 witness: invoice 77 of the demo pool repaid with 150,000: 200 go to
    the fee receiver, 50,000 come back, 99,800 stay as liquidity. *)
Lemma repay_conserves_value_witness :
  let s' := transact demo_crypto (demo_env 5 2000) (call_repay 150000 77)
              demo_financed in
  150000 = protocolFeeFor (getFinancingRecord 77 demo_financed) 2000 1000
           + (150000 - requiredFor (getFinancingRecord 77 demo_financed) 2000)
           + (availableLiquidity s' - availableLiquidity demo_financed).
Proof.
  assert (H : exists evs, repay (demo_env 5 2000) 150000 77 demo_financed
              = Ok (transact demo_crypto (demo_env 5 2000) (call_repay 150000 77)
                      demo_financed, evs)).
  { eexists. vm_compute. reflexivity. }
  destruct H as [evs H].
  exact (proj1 (proj2 (repay_conserves_value _ _ _ _ _ _ H))).
Defined.

(** X10. If the protocol fee transfer of [repay] fails, or the refund of
    the excess fails, the call reverts ([ProtocolFeeTransferFailed],
    [RefundFailed]) and nothing is kept: the record is still unrepaid and
    the pool totals are as before. *)
Theorem repay_rolls_back_failed_transfer K env value id s :
  let record := getFinancingRecord id s in
  let now := block_timestamp env in
  let fee := protocolFeeFor record now (protocolFeeRate s) in
  let required := requiredFor record now in
  _status s = false ->
  id ∈ usedInvoices s ->
  repaid record = false ->
  repay_safe record now s ->
  required <= value ->
  (0 < fee -> call_value env (protocolFeeReceiver s) fee = false ->
   execute K env (call_repay value id) s = Revert ProtocolFeeTransferFailed /\
   transact K env (call_repay value id) s = s) /\
  ((0 < fee -> call_value env (protocolFeeReceiver s) fee = true) ->
   required < value ->
   call_value env (msg_sender env) (value - required) = false ->
   execute K env (call_repay value id) s = Revert RefundFailed /\
   transact K env (call_repay value id) s = s).
Proof.
  intros record now fee required Hs Hid Hrep Hsafe Hreq.
  assert (Hbody : execute K env (call_repay value id) s
                  = repay_body env value id s).
  { simpl. unfold repay.
    apply nonReentrant_idle; [apply repay_body_agnostic|done]. }
  pose proof (repay_body_tail env value id s Hid Hrep Hsafe Hreq) as Htail.
  fold record now fee required in Htail.
  split.
  - intros Hpos Hcall.
    assert (H : execute K env (call_repay value id) s
                = Revert ProtocolFeeTransferFailed).
    { rewrite Hbody, Htail. rewrite (proj2 (N.ltb_lt _ _) Hpos), Hcall.
      reflexivity. }
    split; [done|]. by eapply transact_Revert.
  - intros Hfee Hexc Hcall.
    assert (H : execute K env (call_repay value id) s = Revert RefundFailed).
    { rewrite Hbody, Htail. rewrite (proj2 (N.ltb_lt _ _) Hexc), Hcall.
      destruct (N.ltb_spec 0 fee); [rewrite Hfee by done|]; reflexivity. }
    split; [done|]. by eapply transact_Revert.
Qed.

(** X10 witness: repaying invoice 77 of the demo pool when every transfer
    fails: the 200 fee cannot be paid and the pool is left as it was. *)
Lemma repay_rolls_back_failed_transfer_witness :
  execute demo_crypto (demo_env_failing 5 2000) (call_repay 100000 77)
    demo_financed = Revert ProtocolFeeTransferFailed /\
  transact demo_crypto (demo_env_failing 5 2000) (call_repay 100000 77)
    demo_financed = demo_financed.
Proof.
  refine (proj1 (repay_rolls_back_failed_transfer demo_crypto
                   (demo_env_failing 5 2000) 100000 77 demo_financed
                   _ _ _ _ _) _ _);
    first [reflexivity | by_compute].
Defined.

(** ** Withdrawal in reachable states *)

(** X11. In a reachable state [withdraw] succeeds exactly when the amount
    is positive, within the caller's LP position, within the available
    liquidity, and the transfer succeeds: no arithmetic of the body can
    fail.  The three checks are reported in this order ([AmountZero],
    [InsufficientDeposit], [InsufficientLiquidity]), then [TransferFailed]. *)
Theorem withdraw_in_reachable_state K env amount s :
  Reachable K s ->
  (succeeds (withdraw env amount s) = true <->
   0 < amount /\ amount <= getLPBalance (msg_sender env) s /\
   amount <= availableLiquidity s /\
   call_value env (msg_sender env) amount = true) /\
  (amount = 0 -> withdraw env amount s = Revert AmountZero) /\
  (0 < amount -> getLPBalance (msg_sender env) s < amount ->
   withdraw env amount s = Revert InsufficientDeposit) /\
  (0 < amount -> amount <= getLPBalance (msg_sender env) s ->
   availableLiquidity s < amount ->
   withdraw env amount s = Revert InsufficientLiquidity) /\
  (0 < amount -> amount <= getLPBalance (msg_sender env) s ->
   amount <= availableLiquidity s ->
   call_value env (msg_sender env) amount = false ->
   withdraw env amount s = Revert TransferFailed).
Proof.
  intros HR.
  pose proof (Reachable_idle K s HR) as Hs.
  destruct (Reachable_Inv K s HR) as [Hb _].
  assert (Hbody : withdraw env amount s = withdraw_body env amount s).
  { unfold withdraw. apply nonReentrant_idle; [apply withdraw_body_agnostic|done]. }
  split; [|split; [|split; [|split]]].
  - split.
    + destruct (withdraw env amount s) as [[s' evs]|e] eqn:E; [|discriminate].
      intros _. apply withdraw_Ok in E. tauto.
    + intros (Hpos & Hlp & Hav & Hcall).
      erewrite (proj2 (withdraw_Ok env amount s _ _)); [done|].
      repeat split; try done. lia.
  - intros ->. rewrite Hbody. reflexivity.
  - intros Hpos Hlp. rewrite Hbody. unfold withdraw_body.
    rewrite (proj2 (N.ltb_lt _ _) Hpos). next.
    by rewrite (proj2 (N.leb_gt _ _) Hlp).
  - intros Hpos Hlp Hav. rewrite Hbody. unfold withdraw_body.
    rewrite (proj2 (N.ltb_lt _ _) Hpos). next.
    rewrite (proj2 (N.leb_le _ _) Hlp). next.
    by rewrite (proj2 (N.leb_gt _ _) Hav).
  - intros Hpos Hlp Hav Hcall. rewrite Hbody. unfold withdraw_body.
    rewrite (proj2 (N.ltb_lt _ _) Hpos). next.
    rewrite (proj2 (N.leb_le _ _) Hlp), (proj2 (N.leb_le _ _) Hav). next.
    rewrite (sub_in_range _ _ Hlp). next. fields.
    rewrite (sub_in_range (totalPoolSize s) amount) by lia. next. fields.
    rewrite (sub_in_range _ _ Hav). next. by rewrite Hcall.
Qed.

(** X11 witness: in the demo pool after the financing of 98,000 the
    deployer holds a position of 1,000,000 but only 902,000 are liquid: a
    withdrawal of the whole position answers [InsufficientLiquidity]. *)
Lemma withdraw_in_reachable_state_witness :
  Reachable demo_crypto demo_financed /\
  withdraw (demo_env 1 1500) 1000000 demo_financed = Revert InsufficientLiquidity.
Proof.
  split; [apply demo_financed_reachable|].
  destruct (withdraw_in_reachable_state demo_crypto (demo_env 1 1500) 1000000
              demo_financed demo_financed_reachable) as (_ & _ & _ & Hliq & _).
  apply Hliq; by_compute.
Defined.

(** ** The record table *)

(** Every used invoice has a record, and every record carries its key,
    repays more than it paid out, and falls due after it was created. *)
Lemma Reachable_record_terms K s :
  Reachable K s ->
  forall id,
    (id ∈ usedInvoices s -> is_Some (financingRecords s !! id)) /\
    (forall r, financingRecords s !! id = Some r ->
       invoiceId r = id /\ payoutAmount r < repaymentAmount r /\
       timestamp r < dueDate r).
Proof.
  revert s.
  apply (Reachable_invariant K (fun s => forall id,
    (id ∈ usedInvoices s -> is_Some (financingRecords s !! id)) /\
    (forall r, financingRecords s !! id = Some r ->
       invoiceId r = id /\ payoutAmount r < repaymentAmount r /\
       timestamp r < dueDate r))).
  - intros env value wallet s evs Hc. apply constructor_Ok in Hc.
    destruct Hc as (_ & _ & _ & _ & _ & _ & _ & _ & Hu & Hr & _).
    intros id. rewrite Hu, Hr. split.
    + intros H. by apply not_elem_of_empty in H.
    + intros r H. by rewrite lookup_empty in H.
  - intros env c s s' evs _ IH E id.
    destruct (execute_records _ _ _ _ _ _ E)
      as [[Hu Hr] | [(i & p & rp & d & n & dl & sg & -> & Hfresh & Hu & Hr)
         | (v & i & -> & Hused & Hrep & Hu & Hr)]]; rewrite Hu, Hr.
    + apply IH.
    + simpl in E. apply withdrawFinancing_Ok in E.
      destruct E as (_ & _ & _ & _ & Hterms & Hdue & _).
      destruct (decide (id = i)) as [->|Hne].
      * rewrite lookup_insert_eq. split; [by eexists|].
        intros r [= <-]. by repeat split.
      * rewrite lookup_insert_ne by done. split; [|apply IH].
        intros [H|H]%elem_of_union; [|by apply IH].
        by apply elem_of_singleton in H.
    + destruct (decide (id = i)) as [->|Hne].
      * rewrite lookup_insert_eq. split; [by eexists|].
        intros r [= <-].
        destruct (proj1 (IH i) Hused) as [r0 Hr0].
        unfold getFinancingRecord. rewrite Hr0. simpl.
        by apply (proj2 (IH i)).
      * rewrite lookup_insert_ne by done. apply IH.
Qed.

(** X12. The two record views agree in every reachable state: when
    [isInvoiceFinanced] answers true, [getFinancingRecord] returns a record
    under that id whose repayment exceeds its payout and whose due date is
    after its creation time; when it answers false, [getFinancingRecord]
    returns the all-zero record. *)
Theorem record_views_agree K id s :
  Reachable K s ->
  (isInvoiceFinanced id s = true ->
   invoiceId (getFinancingRecord id s) = id /\
   payoutAmount (getFinancingRecord id s) < repaymentAmount (getFinancingRecord id s) /\
   timestamp (getFinancingRecord id s) < dueDate (getFinancingRecord id s)) /\
  (isInvoiceFinanced id s = false -> getFinancingRecord id s = zeroRecord).
Proof.
  intros HR. split.
  - intros Hf. apply isInvoiceFinanced_true in Hf.
    destruct (Reachable_record_terms K s HR id) as [Hsome Hwf].
    destruct (Hsome Hf) as [r Hr].
    unfold getFinancingRecord. rewrite Hr. simpl. by apply Hwf.
  - intros Hf. apply isInvoiceFinanced_false in Hf.
    destruct (Reachable_Inv K s HR) as [_ Hrec].
    unfold getFinancingRecord. by rewrite (Hrec id Hf).
Qed.

(** X12 witness: in the demo pool invoice 77 is financed with its terms and
    invoice 78 reads as the zero record. *)
Lemma record_views_agree_witness :
  Reachable demo_crypto demo_financed /\
  invoiceId (getFinancingRecord 77 demo_financed) = 77 /\
  getFinancingRecord 78 demo_financed = zeroRecord.
Proof.
  split; [apply demo_financed_reachable|].
  destruct (record_views_agree demo_crypto 77 demo_financed
              demo_financed_reachable) as [H77 _].
  destruct (record_views_agree demo_crypto 78 demo_financed
              demo_financed_reachable) as [_ H78].
  split; [apply H77; reflexivity | apply H78; reflexivity].
Defined.

(** ** Repayment cannot get stuck *)

(** X13. An open debt can always be settled: in a reachable state, for a
    financed invoice that is not yet repaid, [repay] succeeds whenever the
    amount sent covers repayment plus late fee and the two transfers go
    through, as long as the sums fit in a [uint256].  No choice of fee rate
    by the admin and no elapsed time makes a subtraction underflow. *)
Theorem open_debt_can_be_repaid K env value id s :
  let record := getFinancingRecord id s in
  let now := block_timestamp env in
  let fee := protocolFeeFor record now (protocolFeeRate s) in
  Reachable K s ->
  isInvoiceFinanced id s = true ->
  repaid record = false ->
  repay_fits record now s ->
  requiredFor record now <= value ->
  (0 < fee -> call_value env (protocolFeeReceiver s) fee = true) ->
  (requiredFor record now < value ->
   call_value env (msg_sender env) (value - requiredFor record now) = true) ->
  exists s' evs,
    repay env value id s = Ok (s', evs) /\
    repaid (getFinancingRecord id s') = true /\
    transact K env (call_repay value id) s = s'.
Proof.
  intros record now fee HR Hf Hrep Hfits Hreq Hfee Hexc.
  apply isInvoiceFinanced_true in Hf.
  destruct (Reachable_record_terms K s HR id) as [Hsome Hwf].
  destruct (Hsome Hf) as [r Hr].
  destruct (Hwf r Hr) as (_ & Hterms & _).
  assert (Hrec : record = r).
  { subst record. unfold getFinancingRecord. by rewrite Hr. }
  rewrite <- Hrec in Hterms.
  destruct Hfits as (Hlf & Hreqmax & Hmul & Hav & Htot & Hearn).
  pose proof (Reachable_rate K s HR) as Hrate.
  assert (Hsafe : repay_safe record now s).
  { refine (conj Hlf (conj (fun _ => Hreqmax) (conj _ (conj _ (conj Hmul
             (conj _ (conj Hav (conj Htot Hearn)))))))).
    - lia.
    - unfold totalInterestFor, requiredFor in *. lia.
    - apply protocolFee_within, Hrate. }
  assert (E : repay env value id s
              = Ok (repaidState id (lpInterestFor record now (protocolFeeRate s))
                      (totalInterestFor record now) s,
                    [Repayment id (msg_sender env) value
                       (totalInterestFor record now) (lateFeeFor record now);
                     InterestDistributed
                       (lpInterestFor record now (protocolFeeRate s)) fee])).
  { apply repay_Ok.
    refine (conj _ (conj Hf (conj Hrep (conj Hsafe (conj Hreq (conj Hfee
             (conj Hexc (conj eq_refl eq_refl)))))))).
    by apply Reachable_idle in HR. }
  eexists _, _. split; [exact E|]. split.
  - by rewrite repaidState_record.
  - by eapply transact_Ok.
Qed.

(** X13 witness: invoice 77 of the demo pool, repaid exactly on day 10. *)
Lemma open_debt_can_be_repaid_witness :
  exists s' evs,
    repay (demo_env 9 865000) 100000 77 demo_financed = Ok (s', evs) /\
    repaid (getFinancingRecord 77 s') = true /\
    transact demo_crypto (demo_env 9 865000) (call_repay 100000 77)
      demo_financed = s'.
Proof.
  apply (open_debt_can_be_repaid demo_crypto (demo_env 9 865000) 100000 77
           demo_financed demo_financed_reachable);
    first [reflexivity | by_compute].
Defined.

(** ** The authorizer wallet and the role table *)

Lemma _revokeRole_shape env role account s :
  (_revokeRole env role account s).1
  = set_roles (_roles (_revokeRole env role account s).1) s.
Proof. unfold _revokeRole. case_match; by destruct s. Qed.

Lemma _grantRole_shape env role account s :
  (_grantRole env role account s).1
  = set_roles (_roles (_grantRole env role account s).1) s.
Proof. unfold _grantRole. case_match; by destruct s. Qed.

Lemma rotated_shape env newWallet s :
  (rotated env newWallet s).1
  = set_roles (_roles (rotated env newWallet s).1)
      (set_aegisServerWallet newWallet s).
Proof.
  unfold rotated.
  pose proof (_revokeRole_shape env AEGIS_ROLE (aegisServerWallet s)
                (set_aegisServerWallet newWallet s)) as S1.
  destruct (_revokeRole _ _ _ _) as [s2 evs2].
  pose proof (_grantRole_shape env AEGIS_ROLE newWallet s2) as S2.
  destruct (_grantRole _ _ _ s2) as [s3 evs3]. simpl in *.
  etrans; [exact S2|]. rewrite S1. by destruct s.
Qed.

(** X14. A successful [updateAegisWallet] replaces the authorizer at once:
    afterwards [withdrawFinancing] accepts only requests whose signature
    recovers to the new wallet, a request that the old wallet had signed
    and that was acceptable before the rotation now reverts with
    [InvalidSignature], and a request signed by the new wallet that passes
    the other checks is paid out. *)
Theorem rotation_replaces_signer K env newWallet s s' evs :
  Reachable K s ->
  updateAegisWallet env newWallet s = Ok (s', evs) ->
  aegisServerWallet s' = newWallet /\
  forall env' id payout repayment due nonce deadline sig,
    (succeeds (withdrawFinancing K env' id payout repayment due nonce deadline
                 sig s') = true ->
     recoverSigner K env' id payout repayment due nonce deadline sig
       = Some newWallet) /\
    (aegisServerWallet s <> newWallet ->
     succeeds (withdrawFinancing K env' id payout repayment due nonce deadline
                 sig s) = true ->
     withdrawFinancing K env' id payout repayment due nonce deadline sig s'
       = Revert InvalidSignature) /\
    ((id ∉ usedInvoices s) ->
     block_timestamp env' <= deadline ->
     payout <= availableLiquidity s ->
     payout < repayment ->
     block_timestamp env' < due ->
     recoverSigner K env' id payout repayment due nonce deadline sig
       = Some newWallet ->
     totalFinanced s + payout <= MAX_UINT256 ->
     call_value env' (msg_sender env') payout = true ->
     succeeds (withdrawFinancing K env' id payout repayment due nonce deadline
                 sig s') = true).
Proof.
  intros HR H. pose proof (Reachable_idle K s HR) as Hidle.
  apply updateAegisWallet_Ok in H. destruct H as (_ & _ & _ & Heq).
  assert (Hs' : s' = (rotated env newWallet s).1) by (by rewrite <- Heq).
  rewrite rotated_shape in Hs'.
  set (R := _roles (rotated env newWallet s).1) in Hs'. clearbody R.
  subst s'. split; [reflexivity|].
  intros env' id payout repayment due nonce deadline sig.
  split; [|split].
  - destruct (withdrawFinancing K env' id payout repayment due nonce deadline
                sig _) as [[s2 evs2]|e] eqn:E; [|discriminate].
    intros _. apply withdrawFinancing_Ok in E.
    by destruct E as (_ & _ & _ & _ & _ & _ & Hsig & _).
  - intros Hne.
    destruct (withdrawFinancing K env' id payout repayment due nonce deadline
                sig s) as [[s2 evs2]|e] eqn:E; [|discriminate].
    intros _. apply withdrawFinancing_Ok in E.
    destruct E as (_ & Hfresh & Hdl & Hav & Hterms & Hdue & Hsig & _).
    rewrite withdrawFinancing_idle by done.
    unfold withdrawFinancing_body, isInvoiceFinanced. fields.
    rewrite (bool_decide_eq_false_2 _ Hfresh). next.
    rewrite (proj2 (N.leb_le _ _) Hdl). next.
    rewrite (proj2 (N.leb_le _ _) Hav). next.
    rewrite (proj2 (N.ltb_lt _ _) Hterms). next.
    rewrite (proj2 (N.ltb_lt _ _) Hdue). next.
    rewrite Hsig. next.
    by rewrite (proj2 (N.eqb_neq _ _) Hne).
  - intros Hfresh Hdl Hav Hterms Hdue Hsig Hfin Hcall.
    erewrite (proj2 (withdrawFinancing_Ok K env' id payout repayment due nonce
                       deadline sig _ _ _)); [done|].
    by repeat split.
Qed.

(** X14 witness: the deployer of the demo pool rotates the wallet from 2 to
    4; the request signed by 2 is then refused. *)
Lemma rotation_replaces_signer_witness :
  let s' := transact demo_crypto (demo_env 1 1000) (call_updateAegisWallet 4)
              demo_deployed in
  aegisServerWallet s' = 4 /\
  withdrawFinancing demo_crypto (demo_env 5 1000) 77 98000 100000 demo_dueDate
    1 2000 [2] s' = Revert InvalidSignature.
Proof.
  assert (H : exists evs, updateAegisWallet (demo_env 1 1000) 4 demo_deployed
              = Ok (transact demo_crypto (demo_env 1 1000)
                      (call_updateAegisWallet 4) demo_deployed, evs)).
  { eexists. vm_compute. reflexivity. }
  destruct H as [evs H].
  destruct (rotation_replaces_signer demo_crypto (demo_env 1 1000) 4
              demo_deployed _ evs (demo_deployed_reachable demo_crypto) H) as [Hw Hreq].
  split; [exact Hw|].
  apply (Hreq (demo_env 5 1000) 77 98000 100000 demo_dueDate 1 2000 [2]);
    by_compute.
Defined.

(** The role table passes through the pool functions untouched. *)

Ltac solve_roles_agnostic :=
  intros ? [];
  repeat (simpl; unfold require, add, sub, mul; simpl;
          try reflexivity; case_match).

Lemma _processDeposit_roles depositor amount :
  roles_agnostic (_processDeposit depositor amount).
Proof. unfold _processDeposit, getLPBalance. solve_roles_agnostic. Qed.

Lemma withdraw_body_roles env amount : roles_agnostic (withdraw_body env amount).
Proof. unfold withdraw_body, getLPBalance. solve_roles_agnostic. Qed.

Lemma withdrawFinancing_body_roles K env id payout repayment due nonce deadline sig :
  roles_agnostic
    (withdrawFinancing_body K env id payout repayment due nonce deadline sig).
Proof.
  unfold withdrawFinancing_body, recordFinancing, isInvoiceFinanced.
  solve_roles_agnostic.
Qed.

Lemma repay_body_roles env value id : roles_agnostic (repay_body env value id).
Proof.
  unfold repay_body, getFinancingRecord, isInvoiceFinanced.
  intros R s. destruct (lateFeeOf _ _) eqn:E.
  all: revert R s E; solve_roles_agnostic.
Qed.

Lemma nonReentrant_roles body :
  roles_agnostic body -> roles_agnostic (nonReentrant body).
Proof.
  intros Hb R s. unfold nonReentrant. fields.
  destruct (_status s); next; [reflexivity|].
  replace (set_status true (set_roles R s))
    with (set_roles R (set_status true s)) by reflexivity.
  rewrite Hb. destruct (body (set_status true s)) as [[s1 evs1]|e]; next;
    reflexivity.
Qed.

(** X15. [deposit], [receive], [withdraw], [withdrawFinancing] and [repay]
    neither read nor write the role table: with any other assignment of
    roles each of them gives the same answer and the same ledger.  In
    particular [withdrawFinancing] honours the signature of
    [aegisServerWallet] whether or not that address holds [AEGIS_ROLE]. *)
Theorem ledger_calls_ignore_roles K env c R s :
  ledger_call c = true ->
  execute K env c (set_roles R s) =
  match execute K env c s with
  | Ok (s', evs) => Ok (set_roles R s', evs)
  | Revert e => Revert e
  end.
Proof.
  destruct c; try discriminate; intros _; simpl.
  - apply nonReentrant_roles, _processDeposit_roles.
  - apply _processDeposit_roles.
  - apply nonReentrant_roles, withdraw_body_roles.
  - apply nonReentrant_roles, withdrawFinancing_body_roles.
  - apply nonReentrant_roles, repay_body_roles.
Qed.

(** X15 witness: with every role removed from the demo pool, wallet 2 has
    no [AEGIS_ROLE], and the financing it signed is still paid out. *)
Lemma ledger_calls_ignore_roles_witness :
  hasRole AEGIS_ROLE 2 (set_roles ∅ demo_deployed) = false /\
  succeeds (execute demo_crypto (demo_env 5 1000) demo_financing
              (set_roles ∅ demo_deployed)) = true.
Proof.
  split; [reflexivity|].
  rewrite (ledger_calls_ignore_roles demo_crypto (demo_env 5 1000)
             demo_financing ∅ demo_deployed eq_refl).
  reflexivity.
Defined.

(** When nobody holds [DEFAULT_ADMIN_ROLE], a call keeps the wallet and
    can only shrink the role table. *)
Lemma execute_no_default_admin K env c s s' evs :
  no_default_admin s ->
  execute K env c s = Ok (s', evs) ->
  aegisServerWallet s' = aegisServerWallet s /\ _roles s' ⊆ _roles s.
Proof.
  intros Hno E. pose proof (Hno (msg_sender env)) as Hcaller.
  destruct c; simpl in E.
  - apply deposit_Ok in E. by destruct E as (_ & _ & _ & _ & _ & -> & _).
  - apply _processDeposit_Ok in E. by destruct E as (_ & _ & _ & _ & -> & _).
  - apply withdraw_Ok in E. by destruct E as (_ & _ & _ & _ & _ & _ & -> & _).
  - apply withdrawFinancing_Ok in E.
    by destruct E as (_ & _ & _ & _ & _ & _ & _ & _ & _ & -> & _).
  - apply repay_Ok in E. by destruct E as (_ & _ & _ & _ & _ & _ & _ & -> & _).
  - apply updateAegisWallet_Ok in E. destruct E as (_ & _ & Hd & _). congruence.
  - apply updateProtocolFeeRate_Ok in E. by destruct E as (_ & _ & -> & _).
  - apply updateProtocolFeeReceiver_Ok in E. by destruct E as (_ & _ & -> & _).
  - apply grantRole_Ok in E. destruct E as [Hd _]. congruence.
  - apply revokeRole_Ok in E. destruct E as [Hd _]. congruence.
  - apply renounceRole_Ok in E. destruct E as [_ Heq].
    assert (Hs' : s' = (_revokeRole env role callerConfirmation s).1)
      by (by rewrite <- Heq).
    subst s'. split.
    + by destruct (_revokeRole_ledger env role callerConfirmation s) as [? _].
    + rewrite _revokeRole_roles. intros x Hx.
      apply elem_of_difference in Hx. tauto.
Qed.

Lemma no_default_admin_subseteq s s' :
  _roles s' ⊆ _roles s -> no_default_admin s -> no_default_admin s'.
Proof.
  intros Hsub Hno account. specialize (Hno account). unfold hasRole in *.
  apply bool_decide_eq_false. apply bool_decide_eq_false in Hno. auto.
Qed.

(** X16. Once no account holds [DEFAULT_ADMIN_ROLE], the configuration of
    authority is frozen: whatever calls follow, from whatever accounts,
    [aegisServerWallet] keeps its value, no account gains a role, and
    [updateAegisWallet], [grantRole] and [revokeRole] revert for every
    caller. *)
Theorem no_default_admin_freezes_authority K calls s :
  no_default_admin s ->
  let s' := run K calls s in
  aegisServerWallet s' = aegisServerWallet s /\
  _roles s' ⊆ _roles s /\
  forall env newWallet role account,
    succeeds (updateAegisWallet env newWallet s') = false /\
    succeeds (grantRole env role account s') = false /\
    succeeds (revokeRole env role account s') = false.
Proof.
  intros Hno. simpl.
  assert (Hrun : aegisServerWallet (run K calls s) = aegisServerWallet s /\
                 _roles (run K calls s) ⊆ _roles s).
  { revert s Hno. induction calls as [|[env c] calls IH]; intros s Hno; simpl.
    - done.
    - assert (Hstep : aegisServerWallet (transact K env c s) = aegisServerWallet s
                      /\ _roles (transact K env c s) ⊆ _roles s).
      { unfold transact.
        destruct (execute K env c s) as [[s1 evs1]|e] eqn:E; [|done].
        by eapply execute_no_default_admin. }
      destruct Hstep as [Hw Hr].
      destruct (IH (transact K env c s)) as [Hw' Hr'].
      { by eapply no_default_admin_subseteq. }
      split; [congruence|]. by transitivity (_roles (transact K env c s)). }
  destruct Hrun as [Hw Hr]. split; [done|]. split; [done|].
  pose proof (no_default_admin_subseteq s _ Hr Hno) as Hno'.
  intros env newWallet role account.
  pose proof (Hno' (msg_sender env)) as Hcaller.
  split; [|split].
  - destruct (updateAegisWallet env newWallet _) as [[s1 evs1]|e] eqn:E; [|done].
    apply updateAegisWallet_Ok in E. destruct E as (_ & _ & Hd & _). congruence.
  - destruct (grantRole env role account _) as [[s1 evs1]|e] eqn:E; [|done].
    apply grantRole_Ok in E. destruct E as [Hd _]. congruence.
  - destruct (revokeRole env role account _) as [[s1 evs1]|e] eqn:E; [|done].
    apply revokeRole_Ok in E. destruct E as [Hd _]. congruence.
Qed.

Lemma demo_renounced_no_default_admin : no_default_admin demo_renounced.
Proof.
  intros account. unfold hasRole. apply bool_decide_eq_false.
  unfold demo_renounced.
  rewrite (transact_Ok demo_crypto (demo_env 1 1000)
             (call_renounceRole DEFAULT_ADMIN_ROLE 1) demo_deployed
             (_revokeRole (demo_env 1 1000) DEFAULT_ADMIN_ROLE 1 demo_deployed).1
             (_revokeRole (demo_env 1 1000) DEFAULT_ADMIN_ROLE 1 demo_deployed).2).
  - rewrite _revokeRole_roles. unfold demo_deployed. fields.
    rewrite elem_of_difference, !elem_of_union, !elem_of_singleton.
    intros [[H|[H|[H|H]]] Hne].
    + discriminate H.
    + discriminate H.
    + done.
    + by apply not_elem_of_empty in H.
  - simpl. apply renounceRole_Ok. split; [reflexivity|].
    by destruct (_revokeRole _ _ _ _).
Qed.

(** X16 witness: after the deployer of the demo pool has renounced
    [DEFAULT_ADMIN_ROLE], its attempt to rotate the wallet to 4 changes
    nothing. *)
Lemma no_default_admin_freezes_authority_witness :
  aegisServerWallet
    (run demo_crypto [(demo_env 1 2000, call_updateAegisWallet 4)] demo_renounced)
  = aegisServerWallet demo_renounced.
Proof.
  exact (proj1 (no_default_admin_freezes_authority demo_crypto
                  [(demo_env 1 2000, call_updateAegisWallet 4)] demo_renounced
                  demo_renounced_no_default_admin)).
Defined.

(** ** Deployment *)

Lemma constructor_roles env value wallet s evs :
  constructor env value wallet = Ok (s, evs) ->
  forall account,
    (hasRole ADMIN_ROLE account s = true <-> account = msg_sender env) /\
    (hasRole DEFAULT_ADMIN_ROLE account s = true <-> account = msg_sender env).
Proof.
  intros Hc account. apply constructor_Ok in Hc.
  destruct Hc as (_ & _ & _ & _ & _ & _ & _ & _ & _ & _ & _ & Hr & _).
  unfold hasRole. rewrite !bool_decide_eq_true, Hr.
  rewrite !elem_of_union, !elem_of_singleton.
  split; split.
  - intros [H|[H|[H|H]]].
    + discriminate H.
    + by injection H.
    + discriminate H.
    + by apply not_elem_of_empty in H.
  - intros ->. right. by left.
  - intros [H|[H|[H|H]]].
    + discriminate H.
    + discriminate H.
    + by injection H.
    + by apply not_elem_of_empty in H.
  - intros ->. right. right. by left.
Qed.

(** X17. Right after deployment the deployer, and nobody else, administers
    the pool: the deployer can rotate the wallet to any non-zero address,
    set any fee rate up to 5000 and any non-zero fee receiver; every other
    caller is turned away from the three functions as lacking
    [ADMIN_ROLE].  A deployment with the zero address as wallet reverts. *)
Theorem deployer_is_sole_admin env value wallet :
  (wallet = 0 -> constructor env value wallet = Revert InvalidAddress) /\
  forall s evs,
    constructor env value wallet = Ok (s, evs) ->
    forall env',
      (msg_sender env' = msg_sender env ->
       (forall newWallet, newWallet <> 0 ->
          succeeds (updateAegisWallet env' newWallet s) = true) /\
       (forall newRate, newRate <= 5000 ->
          succeeds (updateProtocolFeeRate env' newRate s) = true) /\
       (forall newReceiver, newReceiver <> 0 ->
          succeeds (updateProtocolFeeReceiver env' newReceiver s) = true)) /\
      (msg_sender env' <> msg_sender env ->
       forall x,
         updateAegisWallet env' x s
           = Revert (Unauthorized (msg_sender env') ADMIN_ROLE) /\
         updateProtocolFeeRate env' x s
           = Revert (Unauthorized (msg_sender env') ADMIN_ROLE) /\
         updateProtocolFeeReceiver env' x s
           = Revert (Unauthorized (msg_sender env') ADMIN_ROLE)).
Proof.
  split.
  - intros ->. reflexivity.
  - intros s evs Hc env'.
    destruct (constructor_roles env value wallet s evs Hc (msg_sender env'))
      as [Hadmin Hdefault].
    split.
    + intros Hsame.
      apply Hadmin in Hsame as Ha. apply Hdefault in Hsame as Hd.
      split; [|split].
      * intros newWallet Hne.
        destruct (updateAegisWallet_rotates env' newWallet s Ha Hd Hne)
          as (s' & evs' & -> & _). reflexivity.
      * intros newRate Hle.
        by erewrite (proj2 (updateProtocolFeeRate_Ok env' newRate s _ _)).
      * intros newReceiver Hne.
        by erewrite (proj2 (updateProtocolFeeReceiver_Ok env' newReceiver s _ _)).
    + intros Hother x.
      assert (Hno : hasRole ADMIN_ROLE (msg_sender env') s = false).
      { apply not_true_is_false. intros E. by apply Hadmin in E. }
      unfold updateAegisWallet, updateProtocolFeeRate, updateProtocolFeeReceiver.
      by rewrite (onlyRole_denied env' ADMIN_ROLE s Hno).
Qed.

(** X17 witness: the demo pool is what account 1 deployed; account 1 can
    rotate the wallet and account 3 is turned away. *)
Lemma deployer_is_sole_admin_witness :
  succeeds (updateAegisWallet (demo_env 1 1000) 4 demo_deployed) = true /\
  updateAegisWallet (demo_env 3 1000) 4 demo_deployed
    = Revert (Unauthorized 3 ADMIN_ROLE).
Proof.
  destruct demo_deployed_constructed as [evs Hc].
  destruct (deployer_is_sole_admin (demo_env 1 1000) 1000000 2) as [_ H].
  split.
  - destruct (H _ _ Hc (demo_env 1 1000)) as [Hdeployer _].
    destruct (Hdeployer eq_refl) as [Hrotate _]. by apply Hrotate.
  - destruct (H _ _ Hc (demo_env 3 1000)) as [_ Hother].
    destruct (Hother ltac:(done) 4) as [Hrotate _]. exact Hrotate.
Defined.

(** ** Lifetime statistics *)

(** X18. [totalFinanced] and [totalInterestEarned] are lifetime counters:
    along any sequence of calls, from any state, neither ever goes down,
    and an invoice id once used stays used. *)
Theorem counters_are_cumulative K calls s :
  totalFinanced s <= totalFinanced (run K calls s) /\
  totalInterestEarned s <= totalInterestEarned (run K calls s) /\
  usedInvoices s ⊆ usedInvoices (run K calls s).
Proof.
  revert s. induction calls as [|[env c] calls IH]; intros s; simpl; [done|].
  assert (Hstep : totalFinanced s <= totalFinanced (transact K env c s) /\
                  totalInterestEarned s <= totalInterestEarned (transact K env c s) /\
                  usedInvoices s ⊆ usedInvoices (transact K env c s)).
  { unfold transact. destruct (execute K env c s) as [[s' evs]|e] eqn:E; [|done].
    destruct (execute_shape _ _ _ _ _ _ E)
      as [(a & _ & ->) | [(a & _ & _ & _ & ->) | [(i & p & r & d & _ & _ & ->)
         | [(i & _ & _ & _ & ->) | Hcfg]]]]; fields.
    - done.
    - done.
    - split; [lia|]. split; [done|]. apply union_subseteq_r.
    - split; [done|]. split; [lia|done].
    - destruct Hcfg as (_ & _ & -> & -> & -> & _). done. }
  destruct Hstep as (H1 & H2 & H3). destruct (IH (transact K env c s)) as (I1 & I2 & I3).
  split; [lia|]. split; [lia|]. by transitivity (usedInvoices (transact K env c s)).
Qed.
